(** * Satellite coverage optimizer: shallow embedding of [main.cpp]

    The C++ program registers satellites (a name, a half-open time
    interval, a cost, a region) and answers three queries over a fixed
    target window: a greedy selection with its gaps
    ([findMinimumSatellites]), a dynamic-programming selection with its
    cost and gaps ([findMinimumCostCoverage]) and an aggregate
    ([getCoverageSummary]).

    Modelling choices.
    - A [double] that holds a time or a cost is a rational number [Q]:
      the comparisons, [std::min] and [std::max] of the program are exact
      on doubles.  The table [dp] also holds [+infinity]; its entries
      are [edouble].
    - Arithmetic.  [totalCost] of [findMinimumCostCoverage] is
      accumulated as the program does it, each [+=] rounded to the
      nearest binary64 value ([round64], ties to even, overflow to an
      infinity); it is a [double].  The relaxations [dp[i] + cost] and
      the sums, differences and quotient of [getCoverageSummary] are
      taken exactly; they agree with the program as long as no such
      operation rounds or overflows.
    - [std::vector] is [list]; [v[i]] is the partial lookup [v !! i], and a
      read outside the vector makes the whole query [None].
    - [int] indices ([parent]) are [Z], with [-1] for "no parent".
    - [std::sort] orders by [operator<] on the interval start and leaves
      the order of equal keys open.  The queries take the sorting function
      as a parameter [sort]; properties that depend on it assume
      [sorts_by_start sort].  [insertion_sort] is one such function.
    - The [while] loops run on fuel; the queries supply enough of it and
      are proved to return. *)

From Stdlib Require Import QArith Qminmax Qabs Qround Lqa ZArith Lia String Permutation Sorted.
From stdpp Require Import base list.

Local Open Scope Q_scope.

(** ** Comparisons on doubles *)

Definition Qleb (a b : Q) : bool := Qle_bool a b.
Definition Qltb (a b : Q) : bool := negb (Qle_bool b a).

(** [std::min(a, b)] is [(b < a) ? b : a]; [std::max(a, b)] is
    [(a < b) ? b : a]. *)
Definition std_min (a b : Q) : Q := if Qltb b a then b else a.
Definition std_max (a b : Q) : Q := if Qltb a b then b else a.

(** A [double] of the [dp] table: a finite value or
    [std::numeric_limits<double>::infinity()]. *)
Inductive edouble : Type :=
  | Finite (q : Q)
  | Infinity.

Definition eadd (a b : edouble) : edouble :=
  match a, b with
  | Finite x, Finite y => Finite (x + y)
  | _, _ => Infinity
  end.

Definition eltb (a b : edouble) : bool :=
  match a, b with
  | Finite x, Finite y => Qltb x y
  | Finite _, Infinity => true
  | Infinity, _ => false
  end.
Arguments eltb : simpl never.

(** A computed [double]: a finite value, an infinity with its sign, or
    NaN. *)
Inductive double : Type :=
  | DFin (q : Q)
  | DInf (negative : bool)
  | DNaN.

(** [2^e] for any integer [e]. *)
Definition pow2 (e : Z) : Q :=
  if (0 <=? e)%Z then inject_Z (2 ^ e) else 1 / inject_Z (2 ^ (- e)).

(** The integer nearest to [q >= 0], ties to the even one. *)
Definition round_half_even (q : Q) : Z :=
  let f := Qfloor q in
  match Qcompare (q - inject_Z f) (1 # 2) with
  | Lt => f
  | Gt => (f + 1)%Z
  | Eq => if Z.even f then f else (f + 1)%Z
  end.

(** The exponent of the last mantissa bit of binary64 at magnitude
    [a > 0]: [floor (log2 a) - 52], and [-1074] in the subnormal range. *)
Definition ulp_exponent (a : Q) : Z :=
  let l := (Z.log2 (Qnum a) - Z.log2 (Zpos (Qden a)))%Z in
  let fl := if Qle_bool (pow2 l) a then l else (l - 1)%Z in
  Z.max (fl - 52) (-1074).

(** IEEE 754 binary64 rounding of a real result, to nearest, ties to
    even: 53 bits of mantissa, gradual underflow, overflow to an
    infinity. *)
Definition round64 (q : Q) : double :=
  if Qeq_bool q 0 then DFin 0
  else
    let negative := negb (Qle_bool 0 q) in
    let a := Qabs q in
    let e := ulp_exponent a in
    let r := inject_Z (round_half_even (a / pow2 e)) * pow2 e in
    if Qle_bool (pow2 1024) r then DInf negative
    else DFin (Qred (if negative then - r else r)).

(** [x + y] on doubles. *)
Definition double_add (x y : double) : double :=
  match x, y with
  | DNaN, _ | _, DNaN => DNaN
  | DInf a, DInf b => if Bool.eqb a b then DInf a else DNaN
  | DInf a, DFin _ => DInf a
  | DFin _, DInf b => DInf b
  | DFin a, DFin b => round64 (a + b)
  end.

(** ** CoverageInterval *)

Record CoverageInterval : Type := mkCoverageInterval {
  getStart : Q;
  getEnd : Q
}.

Definition getDuration (i : CoverageInterval) : Q := getEnd i - getStart i.

Definition overlaps (a b : CoverageInterval) : bool :=
  negb (Qleb (getEnd a) (getStart b) || Qleb (getEnd b) (getStart a)).

(** ** Satellite *)

Record Satellite : Type := mkSatellite {
  getName : string;
  getInterval : CoverageInterval;
  getCost : Q;
  getRegion : string
}.

(** The constructor's default arguments [c = 1.0] and [r = "Global"]:
    an omitted argument is [None]. *)
Definition newSatellite (n : string) (i : CoverageInterval)
    (c : option Q) (r : option string) : Satellite :=
  mkSatellite n i (default 1 c) (default "Global"%string r).

Definition sat_start (s : Satellite) : Q := getStart (getInterval s).
Definition sat_end (s : Satellite) : Q := getEnd (getInterval s).

(** [Satellite::operator<]. *)
Definition sat_ltb (a b : Satellite) : bool := Qltb (sat_start a) (sat_start b).

(** ** CoverageSummary *)

Record CoverageSummary : Type := mkCoverageSummary {
  totalDuration : Q;
  coveredDuration : Q;
  coveragePercentage : Q;
  gaps : list CoverageInterval;
  satellitesUsed : Z;
  totalCost : Q
}.

(** ** SatelliteCoverageOptimizer *)

Record SatelliteCoverageOptimizer : Type := mkOptimizer {
  satellites : list Satellite;
  targetStart : Q;
  targetEnd : Q
}.

(** The constructor, with its defaults [start = 0] and [end = 24]. *)
Definition newOptimizer (start end_ : option Q) : SatelliteCoverageOptimizer :=
  mkOptimizer [] (default 0 start) (default 24 end_).

(** A member function is a state transformer on the object. *)
Definition Method (A : Type) : Type :=
  SatelliteCoverageOptimizer -> A * SatelliteCoverageOptimizer.

Definition call_twice {A : Type} (m : Method A) : Method (A * A) :=
  fun self =>
    let '(r1, self1) := m self in
    let '(r2, self2) := m self1 in
    ((r1, r2), self2).

Definition addSatellite (name : string) (start end_ : Q)
    (cost : option Q) (region : option string) : Method unit :=
  fun self =>
    let interval := mkCoverageInterval start end_ in
    (tt, mkOptimizer (satellites self ++ [newSatellite name interval cost region])
           (targetStart self) (targetEnd self)).

Definition filterByRegion (region : string) (self : SatelliteCoverageOptimizer)
    : list Satellite :=
  if String.eqb region "All" then satellites self
  else List.filter (fun sat => String.eqb (getRegion sat) region) (satellites self).

(** *** The greedy query *)

(** The local variables of the outer [while] of [findMinimumSatellites]. *)
Record greedy_state : Type := mkGreedy {
  g_i : nat;
  g_currentEnd : Q;
  g_selected : list Satellite;
  g_gaps : list CoverageInterval
}.

(** The inner [while]: the candidates are the longest run, from
    [filtered[i]] on, of satellites that start at or before [currentEnd];
    [i] advances by their number. *)
Fixpoint collect_candidates (rest : list Satellite) (currentEnd : Q)
    : list Satellite :=
  match rest with
  | s :: tl =>
      if Qleb (sat_start s) currentEnd
      then s :: collect_candidates tl currentEnd
      else []
  | [] => []
  end.

(** [std::max_element] with the comparator on interval ends: the first
    of the largest. *)
Fixpoint max_element_from (best : Satellite) (rest : list Satellite) : Satellite :=
  match rest with
  | [] => best
  | s :: tl =>
      if Qltb (sat_end best) (sat_end s)
      then max_element_from s tl
      else max_element_from best tl
  end.

Inductive loop_ctl (S : Type) : Type :=
  | Continue (st : S)
  | Break (st : S).
Arguments Continue {S} st.
Arguments Break {S} st.

(** One pass through the body of the outer [while]. *)
Definition greedy_iteration (tEnd : Q) (filtered : list Satellite)
    (st : greedy_state) : loop_ctl greedy_state :=
  let candidates := collect_candidates (drop (g_i st) filtered) (g_currentEnd st) in
  let i := (g_i st + length candidates)%nat in
  match candidates with
  | [] =>
      let gapStart := g_currentEnd st in
      let gapEnd :=
        match filtered !! i with
        | Some s => std_min (sat_start s) tEnd
        | None => tEnd
        end in
      let gaps' :=
        if Qltb gapStart gapEnd
        then g_gaps st ++ [mkCoverageInterval gapStart gapEnd]
        else g_gaps st in
      match filtered !! i with
      | Some s => Continue (mkGreedy (S i) (sat_end s) (g_selected st ++ [s]) gaps')
      | None => Break (mkGreedy i (g_currentEnd st) (g_selected st) gaps')
      end
  | c :: cs =>
      let bestCandidate := max_element_from c cs in
      Continue (mkGreedy i (sat_end bestCandidate)
                  (g_selected st ++ [bestCandidate]) (g_gaps st))
  end.

Definition greedy_cond (tEnd : Q) (filtered : list Satellite)
    (st : greedy_state) : bool :=
  Qltb (g_currentEnd st) tEnd && (g_i st <? length filtered)%nat.

(** The outer [while]; [None] when the fuel runs out before the loop
    ends. *)
Fixpoint greedy_loop (fuel : nat) (tEnd : Q) (filtered : list Satellite)
    (st : greedy_state) : option greedy_state :=
  if greedy_cond tEnd filtered st then
    match fuel with
    | O => None
    | S fuel' =>
        match greedy_iteration tEnd filtered st with
        | Continue st' => greedy_loop fuel' tEnd filtered st'
        | Break st' => Some st'
        end
    end
  else Some st.

(** The trailing gap emitted after a scan that stopped at [currentEnd]. *)
Definition trailing_gap (currentEnd tEnd : Q) (gs : list CoverageInterval)
    : list CoverageInterval :=
  if Qltb currentEnd tEnd then gs ++ [mkCoverageInterval currentEnd tEnd] else gs.

(** *** The dynamic-programming query *)

(** [v[z]] for an [int] index. *)
Definition lookup_int {A : Type} (v : list A) (z : Z) : option A :=
  if (z <? 0)%Z then None else v !! Z.to_nat z.

Definition dp_tables : Type := (list edouble * list Z)%type.

(** The inner [for (j = i; j < n; j++)]; [tail] is [filtered[j..n)]. *)
Fixpoint dp_inner (tail : list Satellite) (j i : nat) (currentEnd : Q)
    (t : dp_tables) : option dp_tables :=
  match tail with
  | [] => Some t
  | sj :: tl =>
      if Qltb currentEnd (sat_start sj) then Some t
      else
        dpi ← t.1 !! i;
        dpj1 ← t.1 !! (S j);
        let newCost := eadd dpi (Finite (getCost sj)) in
        dp_inner tl (S j) i currentEnd
          (if eltb newCost dpj1
           then (<[S j := newCost]> t.1, <[S j := Z.of_nat j]> t.2)
           else t)
  end.

(** The outer [for (i = 0; i < n; i++)]; [tail] is [filtered[i..n)]. *)
Fixpoint dp_outer (tail : list Satellite) (i : nat) (tStart : Q)
    (filtered : list Satellite) (t : dp_tables) : option dp_tables :=
  match tail with
  | [] => Some t
  | _ :: tl =>
      dpi ← t.1 !! i;
      match dpi with
      | Infinity => dp_outer tl (S i) tStart filtered t
      | Finite _ =>
          currentEnd ←
            (if (i =? 0)%nat then Some tStart
             else p ← t.2 !! i; s ← lookup_int filtered p; Some (sat_end s));
          t' ← dp_inner tail i i currentEnd t;
          dp_outer tl (S i) tStart filtered t'
      end
  end.

Definition dp_init (n : nat) : dp_tables :=
  (<[0%nat := Finite 0]> (replicate (S n) Infinity), replicate (S n) (-1)%Z).

Definition dp_fill (tStart : Q) (filtered : list Satellite) : option dp_tables :=
  dp_outer filtered 0 tStart filtered (dp_init (length filtered)).

(** The reconstruction [while (idx > 0 && parent[idx] != -1)]. *)
Fixpoint reconstruct (fuel : nat) (filtered : list Satellite) (parent : list Z)
    (idx : Z) (selected : list Satellite) (cost : double)
    : option (list Satellite * double) :=
  if (0 <? idx)%Z then
    p ← lookup_int parent idx;
    if (p =? -1)%Z then Some (selected, cost)
    else
      match fuel with
      | O => None
      | S fuel' =>
          s ← lookup_int filtered p;
          reconstruct fuel' filtered parent p (selected ++ [s])
            (double_add cost (DFin (getCost s)))
      end
  else Some (selected, cost).

(** The gap scan over the reconstructed selection: the list of gaps and
    [currentEnd] after each satellite. *)
Fixpoint find_gaps (selected : list Satellite) (currentEnd : Q)
    (gs : list CoverageInterval) : list CoverageInterval * Q :=
  match selected with
  | [] => (gs, currentEnd)
  | sat :: tl =>
      let gs' :=
        if Qltb currentEnd (sat_start sat)
        then gs ++ [mkCoverageInterval currentEnd (sat_start sat)]
        else gs in
      find_gaps tl (std_max currentEnd (sat_end sat)) gs'
  end.

(** *** The summary loop *)

(** The [for] loop of [getCoverageSummary]: running [totalCost] and
    [coveredTime]. *)
Fixpoint summary_loop (tStart tEnd : Q) (selected : list Satellite)
    (cost coveredTime : Q) : Q * Q :=
  match selected with
  | [] => (cost, coveredTime)
  | sat :: tl =>
      let start := std_max tStart (sat_start sat) in
      let end_ := std_min tEnd (sat_end sat) in
      summary_loop tStart tEnd tl (cost + getCost sat) (coveredTime + (end_ - start))
  end.

(** The three queries after [filterByRegion] and [std::sort], on the
    sorted list [filtered] and the window [[tStart, tEnd)]. *)

Definition greedy_cover (tStart tEnd : Q) (filtered : list Satellite)
    : option (list Satellite * list CoverageInterval) :=
  st ← greedy_loop (length filtered) tEnd filtered (mkGreedy 0 tStart [] []);
  Some (g_selected st, trailing_gap (g_currentEnd st) tEnd (g_gaps st)).

Definition min_cost_cover (tStart tEnd : Q) (filtered : list Satellite)
    : option (list Satellite * double * list CoverageInterval) :=
  let n := length filtered in
  t ← dp_fill tStart filtered;
  r ← reconstruct n filtered t.2 (Z.of_nat n) [] (DFin 0);
  let selected := rev r.1 in
  let '(gs, currentEnd) := find_gaps selected tStart [] in
  Some (selected, r.2, trailing_gap currentEnd tEnd gs).

Definition summarize (tStart tEnd : Q)
    (r : list Satellite * list CoverageInterval) : CoverageSummary :=
  let '(selected, gs) := r in
  let total := tEnd - tStart in
  let '(cost, coveredTime) := summary_loop tStart tEnd selected 0 0 in
  mkCoverageSummary total coveredTime (coveredTime / total * 100) gs
    (Z.of_nat (length selected)) cost.

Section Queries.

(** [std::sort(filtered.begin(), filtered.end())]. *)
Variable sort : list Satellite -> list Satellite.

Definition findMinimumSatellites_body (region : string)
    (self : SatelliteCoverageOptimizer)
    : option (list Satellite * list CoverageInterval) :=
  greedy_cover (targetStart self) (targetEnd self)
    (sort (filterByRegion region self)).

(** The tables [dp] and [parent] of [findMinimumCostCoverage] after the
    fill loops. *)
Definition findMinimumCostCoverage_tables (region : string)
    (self : SatelliteCoverageOptimizer) : option dp_tables :=
  dp_fill (targetStart self) (sort (filterByRegion region self)).

Definition findMinimumCostCoverage_body (region : string)
    (self : SatelliteCoverageOptimizer)
    : option (list Satellite * double * list CoverageInterval) :=
  min_cost_cover (targetStart self) (targetEnd self)
    (sort (filterByRegion region self)).

Definition getCoverageSummary_body (region : string)
    (self : SatelliteCoverageOptimizer) : option CoverageSummary :=
  r ← findMinimumSatellites_body region self;
  Some (summarize (targetStart self) (targetEnd self) r).

(** The three queries as member functions: they read the object and
    hand it back. *)
Definition findMinimumSatellites (region : string)
    : Method (option (list Satellite * list CoverageInterval)) :=
  fun self => (findMinimumSatellites_body region self, self).

Definition findMinimumCostCoverage (region : string)
    : Method (option (list Satellite * double * list CoverageInterval)) :=
  fun self => (findMinimumCostCoverage_body region self, self).

Definition getCoverageSummary (region : string)
    : Method (option CoverageSummary) :=
  fun self => (getCoverageSummary_body region self, self).

End Queries.

(** ** A sorting function *)

Fixpoint insert_sorted (x : Satellite) (l : list Satellite) : list Satellite :=
  match l with
  | [] => [x]
  | y :: tl => if sat_ltb x y then x :: l else y :: insert_sorted x tl
  end.

Fixpoint insertion_sort (l : list Satellite) : list Satellite :=
  match l with
  | [] => []
  | x :: tl => insert_sorted x (insertion_sort tl)
  end.

Definition le_start (a b : Satellite) : Prop := sat_start a <= sat_start b.
Definition lt_start (a b : Satellite) : Prop := sat_start a < sat_start b.

(** What the program relies on from [std::sort]. *)
Definition sorts_by_start (sort : list Satellite -> list Satellite) : Prop :=
  forall l, Permutation (sort l) l /\ StronglySorted le_start (sort l).

(** ** The registry of [main] *)

Definition add (name : string) (s e c : Q) (region : string)
    (self : SatelliteCoverageOptimizer) : SatelliteCoverageOptimizer :=
  (addSatellite name s e (Some c) (Some region) self).2.

Definition main_optimizer : SatelliteCoverageOptimizer :=
  add "Sat-Kappa" 18 23 1000 "Global"
  (add "Sat-Iota" 14 20 1700 "Americas"
  (add "Sat-Theta" 10 16 1400 "Europe"
  (add "Sat-Eta" 2 8 900 "Asia"
  (add "Sat-Zeta" 20 24 1100 "Global"
  (add "Sat-Epsilon" 16 22 1600 "Europe"
  (add "Sat-Delta" 12 18 1300 "Americas"
  (add "Sat-Gamma" 8 14 1800 "Asia"
  (add "Sat-Beta" 4 10 1500 "Europe"
  (add "Sat-Alpha" 0 6 1200 "Asia"
  (newOptimizer (Some 0) (Some 24))))))))))).

(** ** Vocabulary of the properties *)

(** A gap is a non-empty interval. *)
Definition gap_ok (g : CoverageInterval) : Prop := getStart g < getEnd g.

(** The shape of [dp] and [parent] throughout the fill loops: both have
    [n + 1] entries, entry [0] is the base case, and from index [1] on an
    entry is either untouched or holds a finite cost with the parent
    one index below. *)
Definition dp_inv (n : nat) (t : dp_tables) : Prop :=
  length t.1 = S n
  /\ length t.2 = S n
  /\ t.1 !! 0%nat = Some (Finite 0)
  /\ t.2 !! 0%nat = Some (-1)%Z
  /\ forall k : nat, (1 <= k <= n)%nat ->
       (t.1 !! k = Some Infinity /\ t.2 !! k = Some (-1)%Z)
       \/ (exists c, t.1 !! k = Some (Finite c)
                     /\ t.2 !! k = Some (Z.of_nat k - 1)%Z).

Definition is_finite (d : option edouble) : Prop := exists c, d = Some (Finite c).

(** The reconstruction walk from [idx] passes the indices above [m] and
    stops at [m]. *)
Definition walk_stops_at (t : dp_tables) (m idx : nat) : Prop :=
  (m = 0%nat \/ t.1 !! m = Some Infinity)
  /\ forall k : nat, (m < k <= idx)%nat -> is_finite (t.1 !! k).

(** [filtered[j]] starts at or before the window start or the end of an
    earlier satellite of the list. *)
Definition reachable_start (tStart : Q) (filtered : list Satellite)
    (j : nat) (sj : Satellite) : Prop :=
  sat_start sj <= tStart
  \/ exists (i' : nat) (si' : Satellite),
       (i' < j)%nat /\ filtered !! i' = Some si' /\ sat_start sj <= sat_end si'.

(** The frontier used at index [i]: the window start or the end of an
    earlier satellite. *)
Definition frontier_of (tStart : Q) (filtered : list Satellite)
    (i : nat) (currentEnd : Q) : Prop :=
  currentEnd = tStart
  \/ exists (i' : nat) (si' : Satellite),
       (i' < i)%nat /\ filtered !! i' = Some si' /\ currentEnd = sat_end si'.

(** The finite entries of [dp] form an initial segment, and a finite
    [dp[j+1]] means that [filtered[j]] has a reachable start. *)
Definition dp_links (tStart : Q) (filtered : list Satellite) (t : dp_tables) : Prop :=
  (forall k : nat, is_finite (t.1 !! S k) -> is_finite (t.1 !! k))
  /\ (forall (j : nat) (sj : Satellite),
        filtered !! j = Some sj -> is_finite (t.1 !! S j) ->
        reachable_start tStart filtered j sj).

Fixpoint sum_costs (l : list Satellite) : Q :=
  match l with
  | [] => 0
  | s :: tl => getCost s + sum_costs tl
  end.

(** The running total [acc += cost] over the satellites of [l], from the
    first to the last, in double arithmetic. *)
Definition add_costs (acc : double) (l : list Satellite) : double :=
  fold_left (fun acc s => double_add acc (DFin (getCost s))) l acc.

(** The double [d] is finite and its value is the number [q]. *)
Definition double_is (d : double) (q : Q) : Prop :=
  exists x, d = DFin x /\ x == q.

(** The cost of [s] is a non-negative whole number. *)
Definition whole_cost (s : Satellite) : Prop :=
  exists c : Z, (0 <= c)%Z /\ getCost s == inject_Z c.

(** Three chained satellites over the window [[0, 24)] with costs 1, 1
    and [2^53]. *)
Definition rounding_registry : SatelliteCoverageOptimizer :=
  add "Sat-C" 10 24 9007199254740992 "Global"
  (add "Sat-B" 5 15 1 "Global"
  (add "Sat-A" 0 10 1 "Global" (newOptimizer (Some 0) (Some 24)))).



Definition prefix_registry : SatelliteCoverageOptimizer :=
  add "Sat-B" 10 14 7 "Global"
  (add "Sat-A" 0 6 5 "Global" (newOptimizer (Some 0) (Some 24))).

(** Membership of a time point in a half-open interval and in the
    window. *)
Definition in_interval (t : Q) (i : CoverageInterval) : Prop :=
  getStart i <= t /\ t < getEnd i.

Definition in_window (tStart tEnd t : Q) : Prop := tStart <= t /\ t < tEnd.

Definition covered_by (tStart tEnd : Q) (selected : list Satellite) (t : Q) : Prop :=
  in_window tStart tEnd t
  /\ exists s, In s selected /\ in_interval t (getInterval s).

Definition in_gaps (gs : list CoverageInterval) (t : Q) : Prop :=
  exists g, In g gs /\ in_interval t g.

(** The selection, clipped to the window, and the gaps tile the window:
    together they make up exactly the window, and no gap meets a
    selected interval. *)
Definition tiles (tStart tEnd : Q) (selected : list Satellite)
    (gs : list CoverageInterval) : Prop :=
  (forall t, in_window tStart tEnd t <->
             covered_by tStart tEnd selected t \/ in_gaps gs t)
  /\ (forall t g s, In g gs -> In s selected ->
        in_interval t g -> in_interval t (getInterval s) -> False).

(** The contribution of one satellite to [coveredTime], as the summary
    loop computes it. *)
Definition clipped_length (tStart tEnd : Q) (s : Satellite) : Q :=
  std_min tEnd (sat_end s) - std_max tStart (sat_start s).


(** The overlap length [max(0, min(T1,end) - max(T0,start))] of the
    specification. *)
Definition overlap_length (tStart tEnd : Q) (s : Satellite) : Q :=
  Qmax 0 (Qmin tEnd (sat_end s) - Qmax tStart (sat_start s)).


(** The three satellites of region Asia in [main]. *)
Definition sat_alpha : Satellite :=
  mkSatellite "Sat-Alpha" (mkCoverageInterval 0 6) 1200 "Asia".
Definition sat_eta : Satellite :=
  mkSatellite "Sat-Eta" (mkCoverageInterval 2 8) 900 "Asia".
Definition sat_gamma : Satellite :=
  mkSatellite "Sat-Gamma" (mkCoverageInterval 8 14) 1800 "Asia".

(** The Asia scenario as the specification words it. *)
Definition asia_summary_as_stated (s : CoverageSummary) : Prop :=
  gaps s = [mkCoverageInterval 14 24]
  /\ coveredDuration s == 14
  /\ 5832 # 100 < coveragePercentage s /\ coveragePercentage s < 5834 # 100.

(** Every satellite of the list has a reachable start: no satellite
    starts after both the window start and the ends of all the
    satellites before it. *)
Definition chained (tStart : Q) (filtered : list Satellite) : Prop :=
  forall j sj, filtered !! j = Some sj -> reachable_start tStart filtered j sj.

(** The ends of the list do not decrease along it. *)
Definition le_end (a b : Satellite) : Prop := sat_end a <= sat_end b.

(** What the greedy loop keeps on a list whose starts and ends both
    grow along it and whose ends are all at or after the window start:
    the frontier is the window start or the end of a considered
    satellite and bounds every selected end; the window up to the
    frontier is made up of selected intervals and gaps; every gap lies
    in the window, before every unconsidered satellite, and apart from
    every selected interval. *)
Definition greedy_tiling_inv (tStart tEnd : Q) (filtered : list Satellite)
    (st : greedy_state) : Prop :=
  (g_i st <= length filtered)%nat
  /\ tStart <= g_currentEnd st
  /\ frontier_of tStart filtered (g_i st) (g_currentEnd st)
  /\ (forall s, In s (g_selected st) -> sat_end s <= g_currentEnd st)
  /\ (forall t, in_window tStart tEnd t -> t < g_currentEnd st ->
        covered_by tStart tEnd (g_selected st) t \/ in_gaps (g_gaps st) t)
  /\ (forall g, In g (g_gaps st) -> tStart <= getStart g /\ getEnd g <= tEnd)
  /\ (forall g k sk, In g (g_gaps st) -> (g_i st <= k)%nat ->
        filtered !! k = Some sk -> getEnd g <= sat_start sk)
  /\ (forall g s, In g (g_gaps st) -> In s (g_selected st) ->
        getEnd g <= sat_start s \/ sat_end s <= getStart g).

(** The start of a satellite as a reduced fraction: two starts are the
    same number exactly when their keys are the same term. *)
Definition start_key (s : Satellite) : Q := Qred (sat_start s).

(** * Properties *)

(** ** Comparisons *)

Lemma Qleb_le (a b : Q) : Qleb a b = true <-> a <= b.
Proof. apply Qle_bool_iff. Qed.

Lemma Qleb_gt (a b : Q) : Qleb a b = false <-> b < a.
Proof.
  rewrite <- not_true_iff_false, Qleb_le. split.
  - apply Qnot_le_lt.
  - apply Qlt_not_le.
Qed.

Lemma Qltb_lt (a b : Q) : Qltb a b = true <-> a < b.
Proof. unfold Qltb. rewrite negb_true_iff. apply Qleb_gt. Qed.

Lemma Qltb_ge (a b : Q) : Qltb a b = false <-> b <= a.
Proof. unfold Qltb. rewrite negb_false_iff. apply Qleb_le. Qed.

(** Case analysis on every comparison in sight, leaving the order facts
    as hypotheses. *)
Ltac qcases :=
  repeat match goal with
  | |- context [Qltb ?a ?b] =>
      let E := fresh "E" in
      destruct (Qltb a b) eqn:E;
      [apply Qltb_lt in E | apply Qltb_ge in E]
  | |- context [Qleb ?a ?b] =>
      let E := fresh "E" in
      destruct (Qleb a b) eqn:E;
      [apply Qleb_le in E | apply Qleb_gt in E]
  end.

Lemma std_min_spec (a b : Q) :
  (b < a /\ std_min a b = b) \/ (a <= b /\ std_min a b = a).
Proof. unfold std_min. qcases; auto. Qed.

Lemma std_max_spec (a b : Q) :
  (a < b /\ std_max a b = b) \/ (b <= a /\ std_max a b = a).
Proof. unfold std_max. qcases; auto. Qed.

(** ** [insertion_sort] sorts by start *)

Lemma insert_sorted_perm (x : Satellite) (l : list Satellite) :
  Permutation (insert_sorted x l) (x :: l).
Proof.
  induction l as [|y tl IH]; simpl; [reflexivity|].
  destruct (sat_ltb x y); [reflexivity|].
  rewrite IH. apply perm_swap.
Qed.

Lemma insert_sorted_sorted (x : Satellite) (l : list Satellite) :
  StronglySorted le_start l -> StronglySorted le_start (insert_sorted x l).
Proof.
  induction 1 as [|y tl Hs IH Hy]; simpl.
  - repeat constructor.
  - unfold sat_ltb. destruct (Qltb (sat_start x) (sat_start y)) eqn:E.
    + apply Qltb_lt in E. constructor; [by constructor|].
      constructor; [unfold le_start; lra|].
      eapply Forall_impl; [exact Hy|]. unfold le_start. intros z Hz. lra.
    + apply Qltb_ge in E. constructor; [exact IH|].
      rewrite (insert_sorted_perm x tl). by constructor.
Qed.

Lemma insertion_sort_sorts : sorts_by_start insertion_sort.
Proof.
  intros l. induction l as [|x tl [IHp IHs]]; simpl.
  - split; [reflexivity | constructor].
  - split.
    + rewrite insert_sorted_perm. by constructor.
    + by apply insert_sorted_sorted.
Qed.

(** A list in strictly increasing start order is the only sorted
    arrangement of its elements. *)
Lemma sorted_perm_unique (l l' : list Satellite) :
  StronglySorted lt_start l ->
  Permutation l' l ->
  StronglySorted le_start l' ->
  l' = l.
Proof.
  intros Hl. revert l'. induction Hl as [|a l1 Hs IH Ha]; intros l' Hp Hs'.
  - symmetry in Hp. by apply Permutation_nil in Hp.
  - destruct l' as [|b l1'].
    { by apply Permutation_nil in Hp. }
    assert (b = a) as ->.
    { assert (Hb : In b (a :: l1)).
      { eapply Permutation_in; [exact Hp | by left]. }
      destruct Hb as [->|Hb]; [done|].
      assert (Ha' : In a (b :: l1')).
      { eapply Permutation_in; [symmetry; exact Hp | by left]. }
      destruct Ha' as [->|Ha']; [done|].
      rewrite List.Forall_forall in Ha. specialize (Ha b Hb).
      apply StronglySorted_inv in Hs' as [_ Hb'].
      rewrite List.Forall_forall in Hb'. specialize (Hb' a Ha').
      unfold lt_start, le_start in *. lra. }
    f_equal. apply IH.
    + by apply Permutation_cons_inv in Hp.
    + by apply StronglySorted_inv in Hs' as [? _].
Qed.

Lemma sort_nil (sort : list Satellite -> list Satellite) :
  sorts_by_start sort -> sort [] = [].
Proof.
  intros H. destruct (H []) as [Hp _].
  symmetry in Hp. by apply Permutation_nil in Hp.
Qed.

(** ** The greedy loop *)


Lemma greedy_iteration_progress tEnd filtered st :
  match greedy_iteration tEnd filtered st with
  | Continue st' => (g_i st < g_i st')%nat
  | Break _ => True
  end.
Proof.
  unfold greedy_iteration.
  destruct (collect_candidates _ _) as [|c cs]; simpl.
  - destruct (filtered !! _); simpl; [lia | done].
  - lia.
Qed.

(** The loop returns, and keeps every invariant of its body. *)
Lemma greedy_loop_inv (Inv : greedy_state -> Prop) tEnd filtered :
  (forall st, Inv st -> greedy_cond tEnd filtered st = true ->
     match greedy_iteration tEnd filtered st with
     | Continue st' | Break st' => Inv st'
     end) ->
  forall fuel st, Inv st -> (length filtered - g_i st <= fuel)%nat ->
  exists st', greedy_loop fuel tEnd filtered st = Some st' /\ Inv st'.
Proof.
  intros Hbody fuel. induction fuel as [|fuel IH]; intros st Hinv Hfuel; simpl.
  - destruct (greedy_cond tEnd filtered st) eqn:Hc; [|eauto].
    unfold greedy_cond in Hc. apply andb_true_iff in Hc as [_ Hc].
    apply Nat.ltb_lt in Hc. lia.
  - destruct (greedy_cond tEnd filtered st) eqn:Hc; [|eauto].
    specialize (Hbody st Hinv Hc).
    pose proof (greedy_iteration_progress tEnd filtered st) as Hp.
    destruct (greedy_iteration tEnd filtered st) as [st'|st']; [|eauto].
    apply IH; [done|].
    unfold greedy_cond in Hc. apply andb_true_iff in Hc as [_ Hc].
    apply Nat.ltb_lt in Hc. lia.
Qed.

Lemma greedy_iteration_gaps_ok tEnd filtered st :
  Forall gap_ok (g_gaps st) ->
  match greedy_iteration tEnd filtered st with
  | Continue st' | Break st' => Forall gap_ok (g_gaps st')
  end.
Proof.
  intros Hg. unfold greedy_iteration.
  destruct (collect_candidates _ _) as [|c cs]; simpl; [|done].
  set (gapEnd := match filtered !! _ with Some s => _ | None => tEnd end).
  assert (Forall gap_ok
            (if Qltb (g_currentEnd st) gapEnd
             then g_gaps st ++ [mkCoverageInterval (g_currentEnd st) gapEnd]
             else g_gaps st)).
  { destruct (Qltb _ gapEnd) eqn:E; [|done].
    apply Qltb_lt in E. apply Forall_app. split; [done|].
    by repeat constructor. }
  by destruct (filtered !! _).
Qed.

Lemma trailing_gap_ok currentEnd tEnd gs :
  Forall gap_ok gs -> Forall gap_ok (trailing_gap currentEnd tEnd gs).
Proof.
  intros Hg. unfold trailing_gap. destruct (Qltb _ _) eqn:E; [|done].
  apply Qltb_lt in E. apply Forall_app. split; [done|]. by repeat constructor.
Qed.

Lemma find_gaps_ok selected currentEnd gs :
  Forall gap_ok gs -> Forall gap_ok (find_gaps selected currentEnd gs).1.
Proof.
  revert currentEnd gs.
  induction selected as [|sat tl IH]; intros currentEnd gs Hg; simpl; [done|].
  apply IH. destruct (Qltb _ _) eqn:E; [|done].
  apply Qltb_lt in E. apply Forall_app. split; [done|]. by repeat constructor.
Qed.

Lemma findMinimumSatellites_body_gaps_ok sort region self :
  exists selected gs,
    findMinimumSatellites_body sort region self = Some (selected, gs)
    /\ Forall gap_ok gs.
Proof.
  unfold findMinimumSatellites_body, greedy_cover.
  set (filtered := sort _).
  destruct (greedy_loop_inv (fun st => Forall gap_ok (g_gaps st))
              (targetEnd self) filtered) with
    (fuel := length filtered) (st := mkGreedy 0 (targetStart self) [] [])
    as (st' & -> & Hst'); simpl; [| constructor | lia |].
  - intros st Hst _. by apply greedy_iteration_gaps_ok.
  - eexists _, _. split; [reflexivity|]. by apply trailing_gap_ok.
Qed.

(** ** The dynamic-programming tables *)

Lemma lookup_int_of_nat {A : Type} (v : list A) (k : nat) :
  lookup_int v (Z.of_nat k) = v !! k.
Proof.
  unfold lookup_int. destruct (Z.ltb_spec (Z.of_nat k) 0); [lia|].
  by rewrite Nat2Z.id.
Qed.


Lemma dp_inv_lookup n t k :
  dp_inv n t -> (k <= n)%nat -> exists d, t.1 !! k = Some d.
Proof.
  intros (Hl & _) Hk. apply lookup_lt_is_Some. lia.
Qed.

Lemma dp_init_inv n : dp_inv n (dp_init n).
Proof.
  unfold dp_init, dp_inv; simpl. repeat split.
  - by rewrite length_replicate.
  - by rewrite length_replicate.
  - intros k Hk. left. split.
    + destruct k as [|k]; [lia|]. simpl.
      apply lookup_replicate_2. lia.
    + destruct k as [|k]; [lia|]. simpl.
      apply lookup_replicate_2. lia.
Qed.

(** One relaxation keeps the shape. *)
Lemma dp_relax_inv n t j newCost dpj1 :
  dp_inv n t -> (S j <= n)%nat ->
  dp_inv n (if eltb newCost dpj1
            then (<[S j := newCost]> t.1, <[S j := Z.of_nat j]> t.2)
            else t).
Proof.
  intros Hinv Hj. destruct (eltb newCost dpj1) eqn:E; [|done].
  destruct Hinv as (Hl1 & Hl2 & H0 & Hp0 & Hk). unfold dp_inv; simpl.
  rewrite !length_insert. repeat split; [done | done | | |].
  - by rewrite list_lookup_insert_ne.
  - by rewrite list_lookup_insert_ne.
  - intros k Hkn. destruct (decide (k = S j)) as [->|Hne].
    + right. destruct newCost as [c|].
      * exists c. rewrite !list_lookup_insert_eq by lia.
        split; [done|]. f_equal. lia.
      * discriminate E.
    + rewrite !list_lookup_insert_ne by done. by apply Hk.
Qed.

Lemma dp_inner_inv n tail j i currentEnd t :
  dp_inv n t -> (j + length tail = n)%nat -> (i <= j)%nat ->
  exists t', dp_inner tail j i currentEnd t = Some t' /\ dp_inv n t'.
Proof.
  revert j t. induction tail as [|sj tl IH]; intros j t Hinv Hlen Hij; simpl.
  - eauto.
  - simpl in Hlen. destruct (Qltb currentEnd (sat_start sj)); [eauto|].
    destruct (dp_inv_lookup n t i Hinv) as [dpi ->]; [lia|].
    destruct (dp_inv_lookup n t (S j) Hinv) as [dpj1 ->]; [lia|].
    simpl. apply IH; [|lia|lia].
    apply dp_relax_inv; [done|lia].
Qed.

Lemma dp_outer_inv n tail i tStart filtered t :
  dp_inv n t -> (i + length tail = n)%nat -> length filtered = n ->
  exists t', dp_outer tail i tStart filtered t = Some t' /\ dp_inv n t'.
Proof.
  revert i t. induction tail as [|si tl IH]; intros i t Hinv Hlen Hn.
  - simpl. eauto.
  - cbn [dp_outer]. simpl in Hlen.
    destruct (dp_inv_lookup n t i Hinv) as [dpi Hdpi]; [lia|].
    rewrite Hdpi. simpl. destruct dpi as [c|].
    + assert (exists currentEnd,
                (if (i =? 0)%nat then Some tStart
                 else t.2 !! i ≫= λ p, lookup_int filtered p ≫= λ s, Some (sat_end s))
                = Some currentEnd) as [currentEnd ->].
      { destruct (i =? 0)%nat eqn:Ei; [eauto|].
        apply Nat.eqb_neq in Ei.
        destruct Hinv as (_ & _ & _ & _ & Hk).
        destruct (Hk i) as [[Hinf _]|(c' & _ & ->)]; [lia|congruence|].
        simpl. destruct i as [|i']; [lia|].
        replace (Z.of_nat (S i') - 1)%Z with (Z.of_nat i') by lia.
        rewrite lookup_int_of_nat.
        destruct (lookup_lt_is_Some_2 filtered i') as [s ->]; [lia|].
        simpl. eauto. }
      simpl.
      destruct (dp_inner_inv n (si :: tl) i i currentEnd t) as (t' & Ht' & Hinv');
        [done|simpl; lia|lia|].
      simpl in Ht'. rewrite Ht'. simpl. apply IH; [done|lia|done].
    + apply IH; [done|lia|done].
Qed.

Lemma dp_fill_inv tStart filtered :
  exists t, dp_fill tStart filtered = Some t /\ dp_inv (length filtered) t.
Proof.
  unfold dp_fill. apply dp_outer_inv; [apply dp_init_inv|lia|done].
Qed.

(** ** Reconstruction *)


Lemma sum_costs_app l1 l2 : sum_costs (l1 ++ l2) == sum_costs l1 + sum_costs l2.
Proof. induction l1 as [|s tl IH]; simpl; [|rewrite IH]; ring. Qed.

Lemma sum_costs_rev l : sum_costs (rev l) == sum_costs l.
Proof.
  induction l as [|s tl IH]; simpl; [reflexivity|].
  rewrite sum_costs_app, IH. simpl. ring.
Qed.

(** The walk stops at once where the parent is undefined. *)
Lemma reconstruct_undefined fuel filtered parent idx selected cost :
  lookup_int parent idx = Some (-1)%Z ->
  reconstruct fuel filtered parent idx selected cost = Some (selected, cost).
Proof.
  intros Hp. destruct fuel; simpl; rewrite Hp; simpl; by destruct (0 <? idx)%Z.
Qed.

(** From index [idx] the walk collects [filtered[idx-1]], [filtered[idx-2]],
    ... down to some [filtered[m]]. *)
Lemma reconstruct_spec n t filtered :
  dp_inv n t -> length filtered = n ->
  forall fuel idx selected cost, (idx <= n)%nat -> (idx <= fuel)%nat ->
  exists m,
    (m <= idx)%nat
    /\ reconstruct fuel filtered t.2 (Z.of_nat idx) selected cost
       = Some (selected ++ rev (drop m (take idx filtered)),
               add_costs cost (rev (drop m (take idx filtered))))
    /\ walk_stops_at t m idx.
Proof.
  intros Hinv Hn fuel.
  induction fuel as [|fuel IH]; intros idx selected cost Hidx Hfuel.
  - assert (idx = 0%nat) as -> by lia. exists 0%nat.
    split; [lia|]. split; [simpl; by rewrite app_nil_r|].
    split; [by left|]. intros k Hk. lia.
  - destruct idx as [|k].
    { exists 0%nat.
      split; [lia|]. split; [simpl; by rewrite app_nil_r|].
      split; [by left|]. intros k Hk. lia. }
    cbn [reconstruct].
    destruct (Z.ltb_spec 0 (Z.of_nat (S k))); [|lia].
    rewrite lookup_int_of_nat.
    destruct Hinv as (Hl1 & Hl2 & H0 & Hp0 & Hk).
    destruct (Hk (S k)) as [[Hinf ->]|(c & Hfin & ->)]; [lia| |]; simpl.
    + exists (S k). split; [lia|].
      rewrite drop_ge by (rewrite length_take; lia).
      simpl. rewrite app_nil_r. split; [done|].
      split; [by right|]. intros k' Hk'. lia.
    + replace (Z.of_nat (S k) - 1)%Z with (Z.of_nat k) by lia.
      destruct (Z.eqb_spec (Z.of_nat k) (-1)); [lia|].
      rewrite lookup_int_of_nat.
      destruct (lookup_lt_is_Some_2 filtered k) as [s Hs]; [lia|].
      rewrite Hs. simpl.
      destruct (IH k (selected ++ [s]) (double_add cost (DFin (getCost s))))
        as (m & Hm & -> & Hstop & Hpass); [lia|lia|].
      exists m. split; [lia|].
      rewrite (take_S_r _ _ _ Hs).
      rewrite drop_app_le by (rewrite length_take; lia).
      rewrite rev_app_distr. simpl. rewrite <- app_assoc. simpl.
      split; [done|].
      split; [done|]. intros k' Hk'.
      destruct (decide (k' = S k)) as [->|Hne]; [by exists c|].
      apply Hpass. lia.
Qed.

Lemma reconstruct_top n t filtered :
  dp_inv n t -> length filtered = n ->
  exists m,
    (m <= n)%nat
    /\ reconstruct n filtered t.2 (Z.of_nat n) [] (DFin 0)
       = Some (rev (drop m filtered), add_costs (DFin 0) (rev (drop m filtered)))
    /\ (t.2 !! n = Some (-1)%Z -> drop m filtered = [])
    /\ walk_stops_at t m n.
Proof.
  intros Hinv Hn.
  destruct (reconstruct_spec n t filtered Hinv Hn n n [] (DFin 0))
    as (m & Hm & Hr & Hw); [lia|lia|].
  rewrite take_ge in Hr by lia. simpl in Hr.
  exists m. split; [done|]. split; [done|]. split; [|done].
  intros Hu. rewrite reconstruct_undefined in Hr
    by (by rewrite lookup_int_of_nat).
  injection Hr as Hr _. symmetry in Hr.
  apply (f_equal (@rev Satellite)) in Hr. by rewrite rev_involutive in Hr.
Qed.

(** The dynamic-programming query returns; its selection is a tail of
    the sorted list and its cost the running total over the selection
    taken from the last satellite back to the first. *)
Lemma min_cost_cover_spec tStart tEnd filtered :
  exists t m,
    dp_fill tStart filtered = Some t
    /\ dp_inv (length filtered) t
    /\ (m <= length filtered)%nat
    /\ min_cost_cover tStart tEnd filtered
       = Some (drop m filtered, add_costs (DFin 0) (rev (drop m filtered)),
               trailing_gap (find_gaps (drop m filtered) tStart []).2 tEnd
                 (find_gaps (drop m filtered) tStart []).1)
    /\ (t.2 !! length filtered = Some (-1)%Z -> drop m filtered = [])
    /\ walk_stops_at t m (length filtered).
Proof.
  destruct (dp_fill_inv tStart filtered) as (t & Ht & Hinv).
  destruct (reconstruct_top _ t filtered Hinv eq_refl)
    as (m & Hm & Hr & Hu & Hw).
  exists t, m. do 3 (split; [done|]). split; [|done].
  unfold min_cost_cover. rewrite Ht. simpl. rewrite Hr. simpl.
  rewrite rev_involutive. by destruct (find_gaps _ _ _).
Qed.

Lemma StronglySorted_drop {A : Type} (R : A -> A -> Prop) (m : nat) (l : list A) :
  StronglySorted R l -> StronglySorted R (drop m l).
Proof.
  revert l. induction m as [|m IH]; intros l Hs; [done|].
  destruct l as [|x tl]; [done|]. simpl.
  apply IH. by apply StronglySorted_inv in Hs as [? _].
Qed.

Lemma dp_inv_parent n t (k : nat) (p : Z) :
  dp_inv n t -> t.2 !! k = Some p -> p <> (-1)%Z -> p = (Z.of_nat k - 1)%Z.
Proof.
  intros (Hl1 & Hl2 & H0 & Hp0 & Hk) Hp Hne.
  destruct k as [|k].
  - congruence.
  - assert (S k <= n)%nat.
    { apply lookup_lt_Some in Hp. lia. }
    destruct (Hk (S k)) as [[_ Hu]|(c & _ & Hd)]; [lia| |]; congruence.
Qed.

(** ** Reachability recorded in the tables *)

Lemma drop_cons_inv {A : Type} (l : list A) (j : nat) (x : A) (tl : list A) :
  drop j l = x :: tl -> l !! j = Some x /\ drop (S j) l = tl.
Proof.
  intros Hd. split.
  - rewrite <- (Nat.add_0_r j), <- lookup_drop. by rewrite Hd.
  - replace (S j) with (j + 1)%nat by lia.
    rewrite <- drop_drop. by rewrite Hd.
Qed.

Lemma dp_init_links tStart filtered : dp_links tStart filtered (dp_init (length filtered)).
Proof.
  assert (H : forall k, ~ is_finite ((dp_init (length filtered)).1 !! S k)).
  { intros k [c Hc]. unfold dp_init in Hc. simpl in Hc.
    apply lookup_replicate_1 in Hc as [Hc _]. discriminate Hc. }
  split.
  - intros k Hk. by apply H in Hk.
  - intros j sj _ Hk. by apply H in Hk.
Qed.

Lemma dp_relax_links tStart filtered t j sj newCost :
  dp_inv (length filtered) t ->
  dp_links tStart filtered t ->
  filtered !! j = Some sj ->
  is_finite (t.1 !! j) ->
  reachable_start tStart filtered j sj ->
  dp_links tStart filtered (<[S j := Finite newCost]> t.1, <[S j := Z.of_nat j]> t.2).
Proof.
  intros (Hl1 & _) [Hpre Hch] Hsj Hj Hreach.
  assert (S j < length t.1)%nat.
  { apply lookup_lt_Some in Hsj. lia. }
  split; simpl.
  - intros k Hk. destruct (decide (k = S j)) as [->|Hne].
    + rewrite list_lookup_insert_eq by done. by eexists.
    + rewrite list_lookup_insert_ne by done.
      destruct (decide (k = j)) as [->|Hne']; [done|].
      rewrite list_lookup_insert_ne in Hk by lia. by apply Hpre.
  - intros j' sj' Hsj' Hk. destruct (decide (j' = j)) as [->|Hne].
    + by replace sj' with sj by congruence.
    + rewrite list_lookup_insert_ne in Hk by lia. by apply Hch.
Qed.

Lemma dp_inner_links tStart filtered i currentEnd :
  frontier_of tStart filtered i currentEnd ->
  forall tail j t t',
    drop j filtered = tail -> (i <= j)%nat ->
    dp_inv (length filtered) t ->
    dp_links tStart filtered t ->
    is_finite (t.1 !! i) -> is_finite (t.1 !! j) ->
    dp_inner tail j i currentEnd t = Some t' ->
    dp_links tStart filtered t'.
Proof.
  intros Hfr tail. induction tail as [|sj tl IH];
    intros j t t' Hd Hij Hinv Hlinks Hi Hj Hrun; simpl in Hrun.
  - by injection Hrun as <-.
  - apply drop_cons_inv in Hd as [Hsj Hd].
    assert (Hlen : (S j <= length filtered)%nat).
    { apply lookup_lt_Some in Hsj. lia. }
    destruct (Qltb currentEnd (sat_start sj)) eqn:E.
    { by injection Hrun as <-. }
    apply Qltb_ge in E.
    destruct Hi as [ci Hci]. rewrite Hci in Hrun. simpl in Hrun.
    destruct (dp_inv_lookup _ t (S j) Hinv Hlen) as [dpj1 Hdpj1].
    rewrite Hdpj1 in Hrun. simpl in Hrun.
    assert (Hreach : reachable_start tStart filtered j sj).
    { destruct Hfr as [->|(i' & si' & Hi' & Hsi' & ->)].
      - by left.
      - right. exists i', si'. split; [lia|]. done. }
    pose proof (dp_relax_inv _ t j (Finite (ci + getCost sj)) dpj1 Hinv Hlen)
      as Hinv'.
    destruct (eltb (Finite (ci + getCost sj)) dpj1) eqn:Elt;
      rewrite ?Elt in Hrun, Hinv'.
    + refine (IH (S j) _ t' Hd _ Hinv' _ _ _ Hrun); [lia| | |].
      * by apply dp_relax_links with (sj := sj).
      * simpl. rewrite list_lookup_insert_ne by lia. by exists ci.
      * simpl. destruct Hinv as (Hl1 & _).
        rewrite list_lookup_insert_eq by lia. by eexists.
    + refine (IH (S j) _ t' Hd _ Hinv Hlinks _ _ Hrun); [lia|by exists ci|].
      rewrite Hdpj1.
      destruct dpj1 as [c|]; [by exists c|discriminate Elt].
Qed.

Lemma dp_outer_links tStart filtered :
  forall tail i t t',
    drop i filtered = tail ->
    dp_inv (length filtered) t ->
    dp_links tStart filtered t ->
    dp_outer tail i tStart filtered t = Some t' ->
    dp_links tStart filtered t'.
Proof.
  intros tail. induction tail as [|si tl IH];
    intros i t t' Hd Hinv Hlinks Hrun.
  - simpl in Hrun. by injection Hrun as <-.
  - cbn [dp_outer] in Hrun.
    pose proof Hd as Hd0.
    apply drop_cons_inv in Hd as [Hsi Hd].
    assert (Hlen : (i < length filtered)%nat) by (by apply lookup_lt_Some in Hsi).
    destruct (dp_inv_lookup _ t i Hinv) as [dpi Hdpi]; [lia|].
    rewrite Hdpi in Hrun. simpl in Hrun.
    destruct dpi as [c|]; [|by apply (IH (S i) t t')].
    destruct (if (i =? 0)%nat then Some tStart
              else t.2 !! i ≫= λ p, lookup_int filtered p ≫= λ s, Some (sat_end s))
      as [currentEnd|] eqn:Hce; [|discriminate Hrun].
    simpl in Hrun.
    assert (Hfr : frontier_of tStart filtered i currentEnd).
    { destruct (i =? 0)%nat eqn:Ei.
      - left. congruence.
      - apply Nat.eqb_neq in Ei. right.
        destruct Hinv as (_ & _ & _ & _ & Hk).
        destruct (Hk i) as [[Hinf _]|(c' & _ & Hp)]; [lia|congruence|].
        rewrite Hp in Hce. simpl in Hce.
        destruct i as [|i']; [lia|].
        replace (Z.of_nat (S i') - 1)%Z with (Z.of_nat i') in Hce by lia.
        rewrite lookup_int_of_nat in Hce.
        destruct (filtered !! i') as [s|] eqn:Hs; [|discriminate Hce].
        simpl in Hce. exists i', s. split; [lia|]. split; [done|congruence]. }
    destruct (dp_inner_inv (length filtered) (si :: tl) i i currentEnd t)
      as (t1 & Ht1 & Hinv1); [done| |lia|].
    { rewrite <- Hd0, length_drop. lia. }
    pose proof Ht1 as Ht1'. simpl in Ht1'.
    rewrite Ht1' in Hrun. simpl in Hrun.
    apply (IH (S i) t1 t'); [done|done| |done].
    apply (dp_inner_links tStart filtered i currentEnd Hfr (si :: tl) i t t1);
      try done; by exists c.
Qed.

Lemma dp_fill_links tStart filtered t :
  dp_fill tStart filtered = Some t -> dp_links tStart filtered t.
Proof.
  apply dp_outer_links; [done|apply dp_init_inv|apply dp_init_links].
Qed.

Lemma dp_links_down tStart filtered t (k k' : nat) :
  dp_links tStart filtered t -> (k' <= k)%nat ->
  is_finite (t.1 !! k) -> is_finite (t.1 !! k').
Proof.
  intros [Hpre _] Hle. induction Hle as [|k Hle IH]; [done|].
  intros Hk. by apply IH, Hpre.
Qed.

(** ** The gap scan over a chained selection *)




(** ** Rounding *)

Lemma pow2_nonpos (e : Z) :
  (e <= 0)%Z -> pow2 e * inject_Z (2 ^ (- e)) == 1.
Proof.
  intros He. unfold pow2. destruct (Z.leb_spec 0 e) as [H|H].
  - assert (e = 0)%Z as -> by lia. reflexivity.
  - assert (Hpos : (0 < 2 ^ (- e))%Z) by (apply Z.pow_pos_nonneg; lia).
    assert (~ inject_Z (2 ^ (- e)) == 0).
    { intros Heq. unfold Qeq in Heq. simpl in Heq. lia. }
    field. done.
Qed.

Lemma round_half_even_whole (x : Q) (n : Z) :
  x == inject_Z n -> round_half_even x = n.
Proof.
  intros Hx. unfold round_half_even.
  assert (Hf : Qfloor x = n) by (rewrite Hx; apply Qfloor_Z).
  rewrite Hf.
  assert (Hlt : x - inject_Z n < 1 # 2) by (rewrite Hx; lra).
  pose proof (proj1 (Qlt_alt _ _) Hlt) as Hc. by rewrite Hc.
Qed.

(** A whole number below [2^53] has its last mantissa bit at a
    non-positive exponent. *)
Lemma ulp_exponent_whole (a : Q) (z : Z) :
  a == inject_Z z -> (0 < z < 2 ^ 53)%Z -> (ulp_exponent a <= 0)%Z.
Proof.
  intros Ha Hz. unfold ulp_exponent.
  set (l := (Z.log2 (Qnum a) - Z.log2 (Z.pos (Qden a)))%Z).
  assert (Hl : (l <= 53)%Z).
  { assert (Hnum : Qnum a = (z * Z.pos (Qden a))%Z).
    { unfold Qeq in Ha. simpl in Ha. lia. }
    subst l. rewrite Hnum.
    pose proof (Z.log2_mul_above z (Z.pos (Qden a)) ltac:(lia) ltac:(lia)).
    assert (Z.log2 z < 53)%Z by (apply Z.log2_lt_pow2; lia). lia. }
  destruct (Qle_bool (pow2 l) a) eqn:E; [|lia].
  apply Qle_bool_iff in E.
  destruct (decide (l = 53%Z)) as [Heq|Hne]; [|lia].
  exfalso. rewrite Heq, Ha in E.
  change (pow2 53) with (inject_Z (2 ^ 53)) in E.
  rewrite <- Zle_Qle in E. lia.
Qed.

(** Non-negative whole numbers below [2^53] are binary64 values:
    rounding leaves them as they are. *)
Lemma round64_whole (q : Q) (z : Z) :
  q == inject_Z z -> (0 <= z < 2 ^ 53)%Z -> double_is (round64 q) q.
Proof.
  intros Hq Hz. unfold round64.
  destruct (Qeq_bool q 0) eqn:E0.
  { apply Qeq_bool_iff in E0. exists 0. split; [done|]. by symmetry. }
  apply Qeq_bool_neq in E0.
  assert (Hzpos : (0 < z)%Z).
  { destruct (decide (z = 0%Z)) as [->|]; [|lia]. by destruct E0. }
  assert (Hqpos : 0 < q).
  { rewrite Hq. change 0 with (inject_Z 0). rewrite <- Zlt_Qlt. lia. }
  assert (Hle : Qle_bool 0 q = true) by (apply Qle_bool_iff; lra).
  rewrite Hle. simpl negb. cbv iota.
  assert (Ha : Qabs q == inject_Z z) by (rewrite Qabs_pos; [done|lra]).
  set (a := Qabs q) in *.
  pose proof (ulp_exponent_whole a z Ha ltac:(lia)) as He.
  set (e := ulp_exponent a) in *.
  pose proof (pow2_nonpos e He) as Hp.
  assert (Hdiv : a / pow2 e == inject_Z (z * 2 ^ (- e))).
  { rewrite inject_Z_mult.
    assert (~ pow2 e == 0) by (intros H0; rewrite H0 in Hp; lra).
    apply (Qmult_inj_r _ _ (pow2 e)); [done|].
    transitivity (inject_Z z); [rewrite <- Ha; field; done|].
    rewrite <- Qmult_assoc, (Qmult_comm (inject_Z (2 ^ (- e)))), Hp. ring. }
  rewrite (round_half_even_whole _ _ Hdiv).
  assert (Hr : inject_Z (z * 2 ^ (- e)) * pow2 e == q).
  { rewrite inject_Z_mult, Hq.
    rewrite <- Qmult_assoc, (Qmult_comm (inject_Z (2 ^ (- e)))), Hp. ring. }
  assert (Hno : Qle_bool (pow2 1024) (inject_Z (z * 2 ^ (- e)) * pow2 e) = false).
  { apply not_true_iff_false. rewrite Qle_bool_iff, Hr, Hq.
    change (pow2 1024) with (inject_Z (2 ^ 1024)).
    rewrite <- Zle_Qle.
    assert (2 ^ 53 < 2 ^ 1024)%Z by (apply Z.pow_lt_mono_r; lia). lia. }
  rewrite Hno. eexists. split; [reflexivity|].
  by rewrite Qred_correct.
Qed.

Lemma sum_costs_whole_nonneg (l : list Satellite) :
  (forall s, In s l -> whole_cost s) -> 0 <= sum_costs l.
Proof.
  induction l as [|s tl IH]; intros Hwhole; simpl; [lra|].
  destruct (Hwhole s (or_introl eq_refl)) as (c & Hc0 & Hc).
  assert (0 <= sum_costs tl) by (apply IH; intros; apply Hwhole; by right).
  assert (0 <= inject_Z c).
  { change 0 with (inject_Z 0). rewrite <- Zle_Qle. lia. }
  rewrite Hc. lra.
Qed.

(** While the running total of whole costs stays below [2^53], no
    addition rounds. *)
Lemma add_costs_whole_from (l : list Satellite) :
  forall (a : Q) (za : Z),
    a == inject_Z za -> (0 <= za)%Z ->
    (forall s, In s l -> whole_cost s) ->
    a + sum_costs l < inject_Z (2 ^ 53) ->
    double_is (add_costs (DFin a) l) (a + sum_costs l).
Proof.
  induction l as [|s tl IH]; intros a za Ha Hza Hwhole Hsum; simpl in Hsum.
  - exists a. split; [done|]. simpl. ring.
  - destruct (Hwhole s (or_introl eq_refl)) as (c & Hc0 & Hc).
    assert (Htl : 0 <= sum_costs tl).
    { apply sum_costs_whole_nonneg. intros; apply Hwhole; by right. }
    assert (Hac : a + getCost s == inject_Z (za + c)).
    { rewrite inject_Z_plus, Ha, Hc. reflexivity. }
    assert (Hbound : (za + c < 2 ^ 53)%Z).
    { rewrite Zlt_Qlt, <- Hac. lra. }
    destruct (round64_whole (a + getCost s) (za + c) Hac ltac:(lia))
      as (x & Hx & Hxeq).
    unfold add_costs. simpl. rewrite Hx.
    destruct (IH x (za + c)%Z) as (y & Hy & Hyeq).
    + by rewrite Hxeq.
    + lia.
    + intros; apply Hwhole; by right.
    + rewrite Hxeq. lra.
    + exists y. split; [exact Hy|]. rewrite Hyeq, Hxeq. ring.
Qed.

Lemma add_costs_whole (selected : list Satellite) :
  (forall s, In s selected -> whole_cost s) ->
  sum_costs selected < inject_Z (2 ^ 53) ->
  double_is (add_costs (DFin 0) (rev selected)) (sum_costs selected).
Proof.
  intros Hwhole Hsum.
  destruct (add_costs_whole_from (rev selected) 0 0%Z) as (x & Hx & Hxeq).
  - reflexivity.
  - lia.
  - intros s Hs. apply Hwhole. by apply in_rev.
  - rewrite sum_costs_rev. lra.
  - exists x. split; [exact Hx|]. rewrite Hxeq, sum_costs_rev. ring.
Qed.

(** ** Sorting a list that is already in strict order *)

Lemma sort_of_sorted (sort : list Satellite -> list Satellite)
    (l l0 : list Satellite) :
  sorts_by_start sort ->
  Permutation l l0 -> StronglySorted lt_start l0 -> sort l = l0.
Proof.
  intros Hsort Hp Hs. destruct (Hsort l) as [Hp' Hs'].
  apply sorted_perm_unique; [done| |done]. by rewrite Hp'.
Qed.

Ltac strictly_sorted :=
  repeat constructor; unfold lt_start, sat_start; simpl; lra.

(** ** The summary loop *)



(** A clipped length and the overlap length of the specification agree
    exactly when the clipped interval is not inverted. *)
Lemma clipped_length_overlap tStart tEnd s :
  std_max tStart (sat_start s) <= std_min tEnd (sat_end s) ->
  clipped_length tStart tEnd s == overlap_length tStart tEnd s.
Proof.
  unfold clipped_length, overlap_length. intros H.
  destruct (std_min_spec tEnd (sat_end s)) as [[? Hmin]|[? Hmin]];
  destruct (std_max_spec tStart (sat_start s)) as [[? Hmax]|[? Hmax]];
  rewrite Hmin, Hmax in *;
  destruct (Q.max_spec 0 (Qmin tEnd (sat_end s) - Qmax tStart (sat_start s)))
    as [[? ->]|[? ->]];
  destruct (Q.min_spec tEnd (sat_end s)) as [[? Hm]|[? Hm]];
  destruct (Q.max_spec tStart (sat_start s)) as [[? HM]|[? HM]];
  rewrite ?Hm, ?HM in *; lra.
Qed.

(** ** Region filter *)

Lemma filterByRegion_empty_registry region self :
  satellites self = [] -> filterByRegion region self = [].
Proof.
  intros H. unfold filterByRegion. rewrite H. by destruct (String.eqb region "All").
Qed.

Lemma filterByRegion_unmatched region self :
  region <> "All"%string ->
  (forall sat, In sat (satellites self) -> getRegion sat <> region) ->
  filterByRegion region self = [].
Proof.
  intros Hall Hno. unfold filterByRegion.
  apply String.eqb_neq in Hall. rewrite Hall.
  induction (satellites self) as [|sat tl IH]; [done|]. simpl.
  assert (Hsat : getRegion sat <> region) by (apply Hno; by left).
  apply String.eqb_neq in Hsat. rewrite Hsat.
  apply IH. intros sat' Hin. apply Hno. by right.
Qed.

(** C10. [addSatellite] without a cost stores cost 1, without a region
    stores region "Global"; an optimizer constructed without arguments
    has the window [[0,24)]; [addSatellite] appends exactly one
    satellite, built from its arguments as they are, and leaves the
    window alone. *)
Theorem addSatellite_defaults :
  (forall name start end_ region self,
     exists sat,
       satellites (addSatellite name start end_ None region self).2
       = satellites self ++ [sat] /\ getCost sat = 1)
  /\ (forall name start end_ cost self,
        exists sat,
          satellites (addSatellite name start end_ cost None self).2
          = satellites self ++ [sat] /\ getRegion sat = "Global"%string)
  /\ (targetStart (newOptimizer None None) = 0
      /\ targetEnd (newOptimizer None None) = 24
      /\ satellites (newOptimizer None None) = [])
  /\ (forall name start end_ cost region self,
        let self' := (addSatellite name start end_ cost region self).2 in
        satellites self'
        = satellites self
          ++ [mkSatellite name (mkCoverageInterval start end_)
                (default 1 cost) (default "Global"%string region)]
        /\ length (satellites self') = S (length (satellites self))
        /\ targetStart self' = targetStart self
        /\ targetEnd self' = targetEnd self).
Proof.
  split; [|split; [|split]].
  - intros. eexists. split; reflexivity.
  - intros. eexists. split; reflexivity.
  - repeat split.
  - intros. subst self'. simpl. repeat split.
    rewrite length_app. simpl. lia.
Qed.

(** C4, amended. In one pass of the outer loop of
    [findMinimumSatellites], when the candidate set at the frontier
    [currentEnd] is empty and [filtered[i]] is the next unconsidered
    satellite, the pass records the gap from [currentEnd] to
    [min(start of filtered[i], T1)], selects [filtered[i]], moves
    [currentEnd] to its end and [i] past it. *)
Theorem forced_select_iteration tEnd filtered st s :
  greedy_cond tEnd filtered st = true ->
  collect_candidates (drop (g_i st) filtered) (g_currentEnd st) = [] ->
  filtered !! g_i st = Some s ->
  greedy_iteration tEnd filtered st
  = Continue (mkGreedy (S (g_i st)) (sat_end s) (g_selected st ++ [s])
                (g_gaps st ++ [mkCoverageInterval (g_currentEnd st)
                                 (std_min (sat_start s) tEnd)])).
Proof.
  intros Hc Hcand Hs. unfold greedy_iteration.
  apply andb_true_iff in Hc as [Hc _]. apply Qltb_lt in Hc.
  assert (Hgt : g_currentEnd st < sat_start s).
  { rewrite (drop_S _ _ _ Hs) in Hcand.
    simpl in Hcand. destruct (Qleb (sat_start s) (g_currentEnd st)) eqn:E;
      [done|]. by apply Qleb_gt in E. }
  rewrite Hcand. simpl. rewrite Nat.add_0_r, Hs.
  assert (Qltb (g_currentEnd st) (std_min (sat_start s) tEnd) = true) as ->.
  { apply Qltb_lt.
    destruct (std_min_spec (sat_start s) tEnd) as [[_ ->]|[_ ->]]; lra. }
  done.
Qed.

Section Claims.

Variable sort : list Satellite -> list Satellite.
Hypothesis Hsort : sorts_by_start sort.



(** C3, amended. For a registry whose satellites of region Asia are
    exactly Sat-Alpha [[0,6)], Sat-Eta [[2,8)] and Sat-Gamma [[8,14)],
    the summary for Asia over the window [[0,24)] reports the single gap
    [[14,24)] of duration 10, three satellites used, [coveredDuration]
    18 (the shared time [[2,6)] of Sat-Alpha and Sat-Eta is counted
    twice) and [coveragePercentage] 75. *)
Theorem asia_summary (self : SatelliteCoverageOptimizer) :
  targetStart self = 0 -> targetEnd self = 24 ->
  Permutation (filterByRegion "Asia" self) [sat_alpha; sat_eta; sat_gamma] ->
  exists s,
    (getCoverageSummary sort "Asia" self).1 = Some s
    /\ gaps s = [mkCoverageInterval 14 24]
    /\ getDuration (mkCoverageInterval 14 24) == 10
    /\ satellitesUsed s = 3%Z
    /\ coveredDuration s == 18
    /\ coveragePercentage s == 75.
Proof.
  intros H0 H24 Hp.
  unfold getCoverageSummary, getCoverageSummary_body,
    findMinimumSatellites_body. simpl fst.
  rewrite H0, H24.
  rewrite (sort_of_sorted sort _ [sat_alpha; sat_eta; sat_gamma] Hsort);
    [|done|strictly_sorted].
  eexists. split; [vm_compute; reflexivity|].
  repeat split; vm_compute; reflexivity.
Qed.

(** C5, amended. [findMinimumCostCoverage] returns, and its
    reconstruction starts at the fixed index [n]: when [parent[n]] is
    undefined the selection is empty and [totalCost] is 0.  In every
    case [totalCost] is the running total of the selected costs, added
    in double arithmetic one at a time from the last selected satellite
    back to the first; when the selected costs are non-negative whole
    numbers whose sum is below [2^53], no addition rounds and
    [totalCost] is their sum.  On [prefix_registry] ([Sat-A] over
    [[0,6)], [Sat-B] over [[10,14)], window [[0,24)]) [Sat-A] covers
    the beginning of the window, no chain reaches index 2, and the
    query returns the empty selection at cost 0. *)
Theorem reconstruction_from_fixed_endpoint :
  (forall region self,
     exists t selected cost gs,
       findMinimumCostCoverage_tables sort region self = Some t
       /\ (findMinimumCostCoverage sort region self).1 = Some (selected, cost, gs)
       /\ (t.2 !! length (sort (filterByRegion region self)) = Some (-1)%Z ->
           selected = [] /\ cost = DFin 0)
       /\ cost = add_costs (DFin 0) (rev selected)
       /\ ((forall s, In s selected -> whole_cost s) ->
           sum_costs selected < inject_Z (2 ^ 53) ->
           double_is cost (sum_costs selected)))
  /\ (exists a t,
        In a (satellites prefix_registry)
        /\ sat_start a <= targetStart prefix_registry
        /\ targetStart prefix_registry < sat_end a
        /\ findMinimumCostCoverage_tables sort "All" prefix_registry = Some t
        /\ t.2 !! 2%nat = Some (-1)%Z
        /\ (findMinimumCostCoverage sort "All" prefix_registry).1
           = Some ([], DFin 0, [mkCoverageInterval 0 24])).
Proof.
  split.
  - intros region self.
    unfold findMinimumCostCoverage, findMinimumCostCoverage_body,
      findMinimumCostCoverage_tables. simpl fst.
    destruct (min_cost_cover_spec (targetStart self) (targetEnd self)
                (sort (filterByRegion region self)))
      as (t & m & Ht & _ & _ & Hr & Hu & _).
    eexists t, _, _, _. split; [done|]. split; [exact Hr|].
    split; [|split; [done|]].
    + intros Hundef. rewrite (Hu Hundef). by split.
    + intros Hwhole Hsum. by apply add_costs_whole.
  - exists (mkSatellite "Sat-A" (mkCoverageInterval 0 6) 5 "Global").
    unfold findMinimumCostCoverage, findMinimumCostCoverage_body,
      findMinimumCostCoverage_tables. simpl fst.
    rewrite (sort_of_sorted sort _ (satellites prefix_registry) Hsort);
      [|reflexivity|strictly_sorted].
    eexists. split; [by left|].
    split; [unfold sat_start; simpl; lra|].
    split; [unfold sat_end; simpl; lra|].
    split; [vm_compute; reflexivity|].
    split; vm_compute; reflexivity.
Qed.

(** C6. When the filtered provider list is empty (an empty registry, or
    a region that no satellite carries): over a window with [T0 < T1]
    [findMinimumSatellites] returns the empty selection and the single
    gap [[T0,T1)], and [getCoverageSummary] reports
    [coveragePercentage = 0]; over a window with [T0 >= T1] it returns
    the empty selection and no gap. *)
Theorem empty_provider_list region self :
  filterByRegion region self = [] ->
  (targetStart self < targetEnd self ->
     (findMinimumSatellites sort region self).1
     = Some ([], [mkCoverageInterval (targetStart self) (targetEnd self)])
     /\ exists s, (getCoverageSummary sort region self).1 = Some s
                  /\ gaps s = [mkCoverageInterval (targetStart self) (targetEnd self)]
                  /\ coveragePercentage s == 0)
  /\ (targetEnd self <= targetStart self ->
     (findMinimumSatellites sort region self).1 = Some ([], [])).
Proof.
  intros Hf.
  unfold getCoverageSummary, getCoverageSummary_body,
    findMinimumSatellites, findMinimumSatellites_body. simpl fst.
  rewrite Hf, (sort_nil sort Hsort).
  unfold greedy_cover, trailing_gap. simpl.
  unfold greedy_cond. simpl. rewrite andb_false_r. simpl.
  split; intros Hw.
  - apply Qltb_lt in Hw. rewrite Hw. split; [done|].
    eexists. split; [reflexivity|]. simpl. split; [done|].
    unfold Qdiv. ring.
  - apply Qltb_ge in Hw. by rewrite Hw.
Qed.

(** C7. Both queries return, and every gap they report has its start
    strictly before its end. *)
Theorem gaps_nonempty region self :
  (exists selected gs,
     (findMinimumSatellites sort region self).1 = Some (selected, gs)
     /\ Forall gap_ok gs)
  /\ (exists selected cost gs,
        (findMinimumCostCoverage sort region self).1 = Some (selected, cost, gs)
        /\ Forall gap_ok gs).
Proof.
  split.
  - apply findMinimumSatellites_body_gaps_ok.
  - unfold findMinimumCostCoverage, findMinimumCostCoverage_body. simpl fst.
    destruct (min_cost_cover_spec (targetStart self) (targetEnd self)
                (sort (filterByRegion region self)))
      as (t & m & _ & _ & _ & Hr & _).
    eexists _, _, _. split; [exact Hr|].
    apply trailing_gap_ok, find_gaps_ok. constructor.
Qed.

(** C8. Calling a query twice in a row returns the same result both
    times and leaves the optimizer, and so its registry, as it was. *)
Theorem queries_idempotent region self :
  (exists r, call_twice (findMinimumSatellites sort region) self = ((r, r), self))
  /\ (exists r, call_twice (findMinimumCostCoverage sort region) self = ((r, r), self))
  /\ (exists r, call_twice (getCoverageSummary sort region) self = ((r, r), self))
  /\ satellites (findMinimumSatellites sort region self).2 = satellites self
  /\ satellites (findMinimumCostCoverage sort region self).2 = satellites self
  /\ satellites (getCoverageSummary sort region self).2 = satellites self.
Proof.
  repeat split; eexists; reflexivity.
Qed.

(** C9. In [findMinimumCostCoverage] a defined [parent[k]] is [k - 1];
    the reconstructed selection is [filtered[m..n)] for some [m <= n]
    (empty when [m = n]), hence in non-decreasing start order. *)
Theorem parent_chain_suffix region self :
  exists t selected cost gs,
    findMinimumCostCoverage_tables sort region self = Some t
    /\ (findMinimumCostCoverage sort region self).1 = Some (selected, cost, gs)
    /\ (forall (k : nat) (p : Z),
          t.2 !! k = Some p -> p <> (-1)%Z -> p = (Z.of_nat k - 1)%Z)
    /\ (exists m, (m <= length (sort (filterByRegion region self)))%nat
                  /\ selected = drop m (sort (filterByRegion region self)))
    /\ StronglySorted le_start selected.
Proof.
  unfold findMinimumCostCoverage, findMinimumCostCoverage_body,
    findMinimumCostCoverage_tables. simpl fst.
  destruct (min_cost_cover_spec (targetStart self) (targetEnd self)
              (sort (filterByRegion region self)))
    as (t & m & Ht & Hinv & Hm & Hr & _).
  eexists t, _, _, _. split; [done|]. split; [exact Hr|].
  split; [|split].
  - intros k p. by apply dp_inv_parent with (n := length (sort (filterByRegion region self))).
  - by exists m.
  - apply StronglySorted_drop. apply Hsort.
Qed.

End Claims.

(** ** The claims at concrete inputs *)



(** C3 as stated fails on the registry of [main]: the summary for Asia
    has [coveredDuration] 18 and [coveragePercentage] 75, not 14 and
    about 58.33. *)
Lemma asia_summary_not_as_stated :
  exists s,
    targetStart main_optimizer = 0
    /\ targetEnd main_optimizer = 24
    /\ filterByRegion "Asia" main_optimizer = [sat_alpha; sat_gamma; sat_eta]
    /\ (getCoverageSummary insertion_sort "Asia" main_optimizer).1 = Some s
    /\ coveredDuration s == 18
    /\ coveragePercentage s == 75
    /\ ~ asia_summary_as_stated s.
Proof.
  eexists. split; [reflexivity|]. split; [reflexivity|].
  split; [reflexivity|]. split; [vm_compute; reflexivity|].
  split; [vm_compute; reflexivity|]. split; [vm_compute; reflexivity|].
  intros (_ & H & _). vm_compute in H. discriminate H.
Qed.

Lemma asia_summary_witness :
  sorts_by_start insertion_sort
  /\ targetStart main_optimizer = 0
  /\ targetEnd main_optimizer = 24
  /\ Permutation (filterByRegion "Asia" main_optimizer)
       [sat_alpha; sat_eta; sat_gamma]
  /\ exists s,
       (getCoverageSummary insertion_sort "Asia" main_optimizer).1 = Some s
       /\ gaps s = [mkCoverageInterval 14 24]
       /\ getDuration (mkCoverageInterval 14 24) == 10
       /\ satellitesUsed s = 3%Z
       /\ coveredDuration s == 18
       /\ coveragePercentage s == 75.
Proof.
  assert (Hp : Permutation (filterByRegion "Asia" main_optimizer)
                 [sat_alpha; sat_eta; sat_gamma]).
  { change (filterByRegion "Asia" main_optimizer)
      with [sat_alpha; sat_gamma; sat_eta].
    apply perm_skip, perm_swap. }
  split; [exact insertion_sort_sorts|].
  split; [reflexivity|]. split; [reflexivity|]. split; [exact Hp|].
  exact (asia_summary insertion_sort insertion_sort_sorts main_optimizer
           eq_refl eq_refl Hp).
Defined.

(** C4 as stated fails when the next satellite starts after the window:
    with the single satellite [[30,40)] and the window [[0,24)], the
    first pass finds no candidate and records the gap [[0,24)], not
    [[0,30)]. *)
Lemma forced_gap_stops_at_window_end :
  let s := mkSatellite "Sat-B" (mkCoverageInterval 30 40) 1 "Global" in
  let st := mkGreedy 0 0 [] [] in
  exists st',
    greedy_cond 24 [s] st = true
    /\ collect_candidates (drop (g_i st) [s]) (g_currentEnd st) = []
    /\ [s] !! g_i st = Some s
    /\ 24 < sat_start s
    /\ greedy_iteration 24 [s] st = Continue st'
    /\ g_gaps st' = [mkCoverageInterval 0 24]
    /\ g_gaps st'
       <> g_gaps st ++ [mkCoverageInterval (g_currentEnd st) (sat_start s)].
Proof.
  intros s st. eexists.
  split; [reflexivity|]. split; [reflexivity|]. split; [reflexivity|].
  split; [reflexivity|]. split; [vm_compute; reflexivity|].
  split; [reflexivity|]. vm_compute. discriminate.
Qed.

Lemma forced_select_iteration_witness :
  let s := mkSatellite "Sat-B" (mkCoverageInterval 30 40) 1 "Global" in
  let st := mkGreedy 0 0 [] [] in
  greedy_cond 24 [s] st = true
  /\ collect_candidates (drop (g_i st) [s]) (g_currentEnd st) = []
  /\ [s] !! g_i st = Some s
  /\ greedy_iteration 24 [s] st
     = Continue (mkGreedy 1 40 [s] [mkCoverageInterval 0 24]).
Proof.
  intros s st.
  split; [reflexivity|]. split; [reflexivity|]. split; [reflexivity|].
  exact (forced_select_iteration 24 [s] st s eq_refl eq_refl eq_refl).
Defined.

(** C5 as stated fails on [rounding_registry]: the chain reaches index 3
    and all three satellites are selected, with costs 1, 1 and [2^53];
    the total is built as [0 + 2^53], then [+ 1] and [+ 1], each of
    which rounds back to [2^53], while the sum of the costs is
    [2^53 + 2]. *)
Lemma total_cost_is_rounded :
  exists selected cost gs,
    (findMinimumCostCoverage insertion_sort "All" rounding_registry).1
    = Some (selected, cost, gs)
    /\ selected = satellites rounding_registry
    /\ length selected = 3%nat
    /\ cost = DFin 9007199254740992
    /\ sum_costs selected == 9007199254740994
    /\ ~ double_is cost (sum_costs selected).
Proof.
  eexists _, _, _. split; [vm_compute; reflexivity|].
  split; [reflexivity|]. split; [reflexivity|]. split; [reflexivity|].
  split; [vm_compute; reflexivity|].
  intros (x & Hx & Hxeq). injection Hx as <-.
  vm_compute in Hxeq. discriminate Hxeq.
Qed.

Lemma reconstruction_from_fixed_endpoint_witness :
  sorts_by_start insertion_sort
  /\ exists t selected cost gs,
       findMinimumCostCoverage_tables insertion_sort "Asia" main_optimizer = Some t
       /\ (findMinimumCostCoverage insertion_sort "Asia" main_optimizer).1
          = Some (selected, cost, gs)
       /\ (t.2 !! length (insertion_sort (filterByRegion "Asia" main_optimizer))
           = Some (-1)%Z -> selected = [] /\ cost = DFin 0)
       /\ cost = add_costs (DFin 0) (rev selected)
       /\ ((forall s, In s selected -> whole_cost s) ->
           sum_costs selected < inject_Z (2 ^ 53) ->
           double_is cost (sum_costs selected)).
Proof.
  split.
  - exact insertion_sort_sorts.
  - exact (proj1 (reconstruction_from_fixed_endpoint insertion_sort
                    insertion_sort_sorts) "Asia"%string main_optimizer).
Defined.

Lemma empty_provider_list_witness :
  sorts_by_start insertion_sort
  /\ filterByRegion "Oceania" main_optimizer = []
  /\ targetStart main_optimizer < targetEnd main_optimizer
  /\ (findMinimumSatellites insertion_sort "Oceania" main_optimizer).1
     = Some ([], [mkCoverageInterval 0 24])
  /\ exists s,
       (getCoverageSummary insertion_sort "Oceania" main_optimizer).1 = Some s
       /\ gaps s = [mkCoverageInterval 0 24]
       /\ coveragePercentage s == 0.
Proof.
  assert (Hw : targetStart main_optimizer < targetEnd main_optimizer)
    by reflexivity.
  split; [exact insertion_sort_sorts|].
  split; [reflexivity|]. split; [exact Hw|].
  exact (proj1 (empty_provider_list insertion_sort insertion_sort_sorts
                  "Oceania"%string main_optimizer eq_refl) Hw).
Defined.

Lemma parent_chain_suffix_witness :
  sorts_by_start insertion_sort
  /\ exists t selected cost gs,
       findMinimumCostCoverage_tables insertion_sort "All" main_optimizer = Some t
       /\ (findMinimumCostCoverage insertion_sort "All" main_optimizer).1
          = Some (selected, cost, gs)
       /\ (forall (k : nat) (p : Z),
             t.2 !! k = Some p -> p <> (-1)%Z -> p = (Z.of_nat k - 1)%Z)
       /\ (exists m,
             (m <= length (insertion_sort (filterByRegion "All" main_optimizer)))%nat
             /\ selected = drop m (insertion_sort (filterByRegion "All" main_optimizer)))
       /\ StronglySorted le_start selected.
Proof.
  split.
  - exact insertion_sort_sorts.
  - exact (parent_chain_suffix insertion_sort insertion_sort_sorts
             "All"%string main_optimizer).
Defined.

(** * Further properties of the program *)

(** ** Intervals *)

Lemma overlaps_true_iff (a b : CoverageInterval) :
  overlaps a b = true <-> getStart a < getEnd b /\ getStart b < getEnd a.
Proof.
  unfold overlaps. rewrite negb_true_iff, orb_false_iff, !Qleb_gt. tauto.
Qed.

(** X1. [overlaps] is symmetric, intervals that only touch do not
    overlap, and two non-empty intervals overlap exactly when they share
    a time point. *)
Theorem overlaps_common_point (a b : CoverageInterval) :
  overlaps a b = overlaps b a
  /\ (getEnd a <= getStart b -> overlaps a b = false)
  /\ (getStart a < getEnd a -> getStart b < getEnd b ->
      (overlaps a b = true <-> exists t, in_interval t a /\ in_interval t b)).
Proof.
  split; [|split].
  - unfold overlaps. by rewrite orb_comm.
  - intros Htouch. apply not_true_iff_false. rewrite overlaps_true_iff. lra.
  - intros Ha Hb. rewrite overlaps_true_iff. unfold in_interval. split.
    + intros [H1 H2]. destruct (Qlt_le_dec (getStart a) (getStart b)).
      * exists (getStart b). lra.
      * exists (getStart a). lra.
    + intros (t & [? ?] & [? ?]). lra.
Qed.

(** ** Region filter, continued *)

Lemma filter_sublist {A : Type} (f : A -> bool) (l : list A) :
  sublist (List.filter f l) l.
Proof.
  induction l as [|x tl IH]; simpl; [constructor|].
  destruct (f x); by constructor.
Qed.

Lemma filterByRegion_sublist (region : string) (self : SatelliteCoverageOptimizer) :
  sublist (filterByRegion region self) (satellites self).
Proof.
  unfold filterByRegion.
  destruct (String.eqb region "All"); [done|apply filter_sublist].
Qed.

Lemma filterByRegion_In (region : string) (self : SatelliteCoverageOptimizer)
    (s : Satellite) :
  region <> "All"%string ->
  In s (filterByRegion region self)
  <-> In s (satellites self) /\ getRegion s = region.
Proof.
  intros Hne. unfold filterByRegion.
  apply String.eqb_neq in Hne. rewrite Hne.
  rewrite filter_In, String.eqb_eq. tauto.
Qed.

(** X2. [filterByRegion] keeps the registration order and drops
    satellites only: for the label "All" it returns the whole registry,
    for any other label exactly the registered satellites that carry
    the label. *)
Theorem filterByRegion_spec (region : string) (self : SatelliteCoverageOptimizer) :
  sublist (filterByRegion region self) (satellites self)
  /\ (region = "All"%string -> filterByRegion region self = satellites self)
  /\ (region <> "All"%string ->
      forall s, In s (filterByRegion region self)
                <-> In s (satellites self) /\ getRegion s = region).
Proof.
  split; [apply filterByRegion_sublist|]. split.
  - intros ->. done.
  - intros Hne s. by apply filterByRegion_In.
Qed.

Lemma filterByRegion_add (region name : string) (start end_ : Q)
    (cost : option Q) (r : option string) (self : SatelliteCoverageOptimizer) :
  filterByRegion region (addSatellite name start end_ cost r self).2
  = filterByRegion region self
    ++ (if String.eqb region "All"
           || String.eqb (getRegion (newSatellite name
                                       (mkCoverageInterval start end_) cost r))
                region
        then [newSatellite name (mkCoverageInterval start end_) cost r]
        else []).
Proof.
  unfold filterByRegion, addSatellite. simpl.
  destruct (String.eqb region "All"); [done|].
  rewrite List.filter_app. simpl.
  by destruct (String.eqb (default "Global"%string r) region).
Qed.

(** X3. Registering a satellite extends the filtered list of a region by
    that satellite when the label is "All" or equals the satellite's
    region, and leaves it unchanged otherwise. *)
Theorem filterByRegion_addSatellite (region name : string) (start end_ : Q)
    (cost : option Q) (r : option string) (self : SatelliteCoverageOptimizer) :
  let sat := newSatellite name (mkCoverageInterval start end_) cost r in
  filterByRegion region (addSatellite name start end_ cost r self).2
  = filterByRegion region self
    ++ (if String.eqb region "All" || String.eqb (getRegion sat) region
        then [sat] else []).
Proof.
  intros sat. unfold filterByRegion, addSatellite. simpl.
  destruct (String.eqb region "All"); [done|].
  rewrite List.filter_app. simpl. fold sat.
  by destruct (String.eqb (getRegion sat) region).
Qed.

(** ** The greedy selection *)

Lemma collect_candidates_take (rest : list Satellite) (currentEnd : Q) :
  collect_candidates rest currentEnd
  = take (length (collect_candidates rest currentEnd)) rest.
Proof.
  induction rest as [|s tl IH]; simpl; [done|].
  destruct (Qleb (sat_start s) currentEnd); simpl; [|done].
  by rewrite <- IH.
Qed.

Lemma collect_candidates_start (rest : list Satellite) (currentEnd : Q) (s : Satellite) :
  In s (collect_candidates rest currentEnd) -> sat_start s <= currentEnd.
Proof.
  induction rest as [|x tl IH]; simpl; [done|].
  destruct (Qleb (sat_start x) currentEnd) eqn:E; [|done].
  intros [<-|Hin]; [by apply Qleb_le|by apply IH].
Qed.

Lemma collect_candidates_length (rest : list Satellite) (currentEnd : Q) :
  (length (collect_candidates rest currentEnd) <= length rest)%nat.
Proof.
  induction rest as [|x tl IH]; simpl; [done|].
  destruct (Qleb (sat_start x) currentEnd); simpl; lia.
Qed.

(** On a list in start order the candidates are all the satellites that
    start at or before the frontier. *)
Lemma collect_candidates_complete (rest : list Satellite) (currentEnd : Q)
    (s : Satellite) :
  StronglySorted le_start rest ->
  In s rest -> sat_start s <= currentEnd ->
  In s (collect_candidates rest currentEnd).
Proof.
  induction 1 as [|x tl Hs IH Hx]; simpl; [done|].
  intros Hin Hle.
  assert (Hxle : sat_start x <= currentEnd).
  { destruct Hin as [->|Hin]; [done|].
    rewrite List.Forall_forall in Hx. specialize (Hx s Hin).
    unfold le_start in Hx. lra. }
  apply Qleb_le in Hxle. rewrite Hxle.
  destruct Hin as [->|Hin]; [by left|]. right. by apply IH.
Qed.

Lemma max_element_from_in (best : Satellite) (rest : list Satellite) :
  In (max_element_from best rest) (best :: rest).
Proof.
  revert best. induction rest as [|s tl IH]; intros best; simpl; [by left|].
  destruct (Qltb (sat_end best) (sat_end s)).
  - right. apply IH.
  - destruct (IH best) as [H|H]; [by left|by right; right].
Qed.

Lemma max_element_from_max (best : Satellite) (rest : list Satellite) (s : Satellite) :
  In s (best :: rest) -> sat_end s <= sat_end (max_element_from best rest).
Proof.
  revert best s. induction rest as [|x tl IH]; intros best s; simpl.
  - intros [->|[]]. lra.
  - destruct (Qltb (sat_end best) (sat_end x)) eqn:E;
      [apply Qltb_lt in E | apply Qltb_ge in E].
    + intros [->|Hin].
      * pose proof (IH x x (or_introl eq_refl)). lra.
      * by apply IH.
    + intros [->|[->|Hin]].
      * apply IH. by left.
      * pose proof (IH best best (or_introl eq_refl)). lra.
      * apply IH. by right.
Qed.

(** Among candidates with the largest end the first one is taken: every
    candidate before the chosen one ends strictly earlier. *)
Lemma max_element_from_first (best : Satellite) (rest : list Satellite) :
  exists pre post,
    best :: rest = pre ++ max_element_from best rest :: post
    /\ forall s, In s pre -> sat_end s < sat_end (max_element_from best rest).
Proof.
  revert best. induction rest as [|x tl IH]; intros best; simpl.
  - exists [], []. by split.
  - destruct (Qltb (sat_end best) (sat_end x)) eqn:E;
      [apply Qltb_lt in E | apply Qltb_ge in E].
    + destruct (IH x) as (pre & post & Heq & Hpre).
      exists (best :: pre), post. split; [simpl; by rewrite Heq|].
      intros s [<-|Hin]; [|by apply Hpre].
      pose proof (max_element_from_max x tl x (or_introl eq_refl)). lra.
    + destruct (IH best) as (pre & post & Heq & Hpre).
      destruct pre as [|p pre'].
      * simpl in Heq. injection Heq as Hb Htl.
        exists [], (x :: post). split; [simpl; by rewrite <- Hb, Htl|done].
      * simpl in Heq. injection Heq as <- Htl.
        exists (best :: x :: pre'), post.
        split; [simpl; do 2 f_equal; exact Htl|].
        intros s [<-|[<-|Hin]].
        -- apply Hpre. by left.
        -- pose proof (Hpre best (or_introl eq_refl)). lra.
        -- apply Hpre. by right.
Qed.

Lemma greedy_iteration_candidates tEnd filtered st c cs :
  collect_candidates (drop (g_i st) filtered) (g_currentEnd st) = c :: cs ->
  exists best pre post,
    greedy_iteration tEnd filtered st
    = Continue (mkGreedy (g_i st + S (length cs)) (sat_end best)
                  (g_selected st ++ [best]) (g_gaps st))
    /\ c :: cs = pre ++ best :: post
    /\ sat_start best <= g_currentEnd st
    /\ (forall s, In s (c :: cs) -> sat_end s <= sat_end best)
    /\ (forall s, In s pre -> sat_end s < sat_end best).
Proof.
  intros Hc. destruct (max_element_from_first c cs) as (pre & post & Heq & Hpre).
  exists (max_element_from c cs), pre, post.
  split; [unfold greedy_iteration; by rewrite Hc|].
  split; [done|]. split.
  - apply (collect_candidates_start (drop (g_i st) filtered)).
    rewrite Hc. apply max_element_from_in.
  - split; [apply max_element_from_max | done].
Qed.

(** X4. When the candidate set is not empty, one pass of the greedy loop
    selects a candidate whose end is the largest of the set, the first
    such candidate in list order, moves the frontier to that end, skips
    all the candidates and records no gap. *)
Theorem greedy_picks_max_end tEnd filtered st c cs :
  collect_candidates (drop (g_i st) filtered) (g_currentEnd st) = c :: cs ->
  exists best pre post,
    greedy_iteration tEnd filtered st
    = Continue (mkGreedy (g_i st + S (length cs)) (sat_end best)
                  (g_selected st ++ [best]) (g_gaps st))
    /\ c :: cs = pre ++ best :: post
    /\ sat_start best <= g_currentEnd st
    /\ (forall s, In s (c :: cs) -> sat_end s <= sat_end best)
    /\ (forall s, In s pre -> sat_end s < sat_end best).
Proof.
  intros Hc. destruct (max_element_from_first c cs) as (pre & post & Heq & Hpre).
  exists (max_element_from c cs), pre, post.
  split; [unfold greedy_iteration; by rewrite Hc|].
  split; [done|]. split.
  - apply (collect_candidates_start (drop (g_i st) filtered)).
    rewrite Hc. apply max_element_from_in.
  - split; [apply max_element_from_max | done].
Qed.

Lemma greedy_iteration_sublist tEnd filtered st :
  (g_i st <= length filtered)%nat ->
  sublist (g_selected st) (take (g_i st) filtered) ->
  match greedy_iteration tEnd filtered st with
  | Continue st' | Break st' =>
      (g_i st' <= length filtered)%nat
      /\ sublist (g_selected st') (take (g_i st') filtered)
  end.
Proof.
  intros Hi Hsub. unfold greedy_iteration.
  pose proof (collect_candidates_take (drop (g_i st) filtered) (g_currentEnd st))
    as Htake.
  pose proof (collect_candidates_length (drop (g_i st) filtered) (g_currentEnd st))
    as Hlen.
  rewrite length_drop in Hlen.
  destruct (collect_candidates _ _) as [|c cs] eqn:Hc.
  - simpl. rewrite Nat.add_0_r.
    destruct (filtered !! g_i st) as [s|] eqn:Hs; simpl; [|done].
    split; [apply lookup_lt_Some in Hs; lia|].
    rewrite (take_S_r _ _ _ Hs). apply sublist_app; [done|reflexivity].
  - cbn [g_i g_selected]. split; [lia|].
    rewrite <- take_take_drop, <- Htake.
    apply sublist_app; [done|].
    apply singleton_sublist_l, list_elem_of_In, max_element_from_in.
Qed.

Lemma StronglySorted_sublist {A : Type} (R : A -> A -> Prop) (l1 l2 : list A) :
  sublist l1 l2 -> StronglySorted R l2 -> StronglySorted R l1.
Proof.
  induction 1 as [|x l1 l2 Hsub IH|x l1 l2 Hsub IH]; intros Hs.
  - constructor.
  - apply StronglySorted_inv in Hs as [Hs Hx]. constructor; [by apply IH|].
    rewrite List.Forall_forall in *. intros y Hy. apply Hx.
    apply list_elem_of_In. eapply elem_of_sublist; [|exact Hsub].
    by apply list_elem_of_In.
  - apply StronglySorted_inv in Hs as [Hs _]. by apply IH.
Qed.

Lemma greedy_cover_sublist tStart tEnd filtered :
  exists selected gs,
    greedy_cover tStart tEnd filtered = Some (selected, gs)
    /\ sublist selected filtered.
Proof.
  unfold greedy_cover.
  destruct (greedy_loop_inv
              (fun st => (g_i st <= length filtered)%nat
                         /\ sublist (g_selected st) (take (g_i st) filtered))
              tEnd filtered) with
    (fuel := length filtered) (st := mkGreedy 0 tStart [] [])
    as (st' & -> & Hi & Hsub); simpl.
  - intros st [Hi Hsub] _. by apply greedy_iteration_sublist.
  - split; [lia|]. rewrite take_0. constructor.
  - lia.
  - eexists _, _. split; [reflexivity|].
    etrans; [exact Hsub|]. apply sublist_take.
Qed.

Lemma greedy_iteration_gap_ends tEnd filtered st :
  Forall (fun g => getEnd g <= tEnd) (g_gaps st) ->
  match greedy_iteration tEnd filtered st with
  | Continue st' | Break st' => Forall (fun g => getEnd g <= tEnd) (g_gaps st')
  end.
Proof.
  intros Hg. unfold greedy_iteration.
  destruct (collect_candidates _ _) as [|c cs]; simpl; [|done].
  set (gapEnd := match filtered !! _ with Some s => _ | None => tEnd end).
  assert (HgapEnd : gapEnd <= tEnd).
  { subst gapEnd. destruct (filtered !! _) as [s|]; [|lra].
    destruct (std_min_spec (sat_start s) tEnd) as [[? ->]|[? ->]]; lra. }
  assert (Forall (fun g => getEnd g <= tEnd)
            (if Qltb (g_currentEnd st) gapEnd
             then g_gaps st ++ [mkCoverageInterval (g_currentEnd st) gapEnd]
             else g_gaps st)).
  { destruct (Qltb _ gapEnd); [|done].
    apply Forall_app. split; [done|]. by repeat constructor. }
  by destruct (filtered !! _).
Qed.

Lemma greedy_loop_stop fuel tEnd filtered st :
  greedy_cond tEnd filtered st = false ->
  greedy_loop fuel tEnd filtered st = Some st.
Proof. intros H. destruct fuel; simpl; by rewrite H. Qed.

Section Selection.

Variable sort : list Satellite -> list Satellite.
Hypothesis Hsort : sorts_by_start sort.

(** X5. The greedy selection is a subsequence of the sorted filtered
    list: it is in non-decreasing start order, holds only registered
    satellites (of the requested region, unless the label is "All"),
    and has at most as many entries as the registry. *)
Theorem greedy_selection_sublist region self :
  exists selected gs,
    (findMinimumSatellites sort region self).1 = Some (selected, gs)
    /\ sublist selected (sort (filterByRegion region self))
    /\ StronglySorted le_start selected
    /\ (forall s, In s selected ->
          In s (satellites self)
          /\ (region <> "All"%string -> getRegion s = region))
    /\ (length selected <= length (satellites self))%nat.
Proof.
  unfold findMinimumSatellites, findMinimumSatellites_body. simpl fst.
  destruct (greedy_cover_sublist (targetStart self) (targetEnd self)
              (sort (filterByRegion region self)))
    as (selected & gs & -> & Hsub).
  destruct (Hsort (filterByRegion region self)) as [Hperm Hsorted].
  pose proof (filterByRegion_sublist region self) as Hfsub.
  exists selected, gs. split; [done|]. split; [done|].
  split; [by apply (StronglySorted_sublist _ _ _ Hsub)|]. split.
  - intros s Hs.
    assert (Hin : In s (filterByRegion region self)).
    { eapply Permutation_in; [exact Hperm|].
      apply list_elem_of_In. eapply elem_of_sublist; [|exact Hsub].
      by apply list_elem_of_In. }
    split.
    + apply list_elem_of_In. eapply elem_of_sublist; [|exact Hfsub].
      by apply list_elem_of_In.
    + intros Hne. by apply (filterByRegion_In region self s Hne).
  - apply sublist_length in Hsub, Hfsub.
    apply Permutation_length in Hperm. lia.
Qed.

(** X6. When the window is not empty and some satellite of the filtered
    list spans it (starts at or before [T0], ends at or after [T1]),
    the greedy query returns exactly one satellite, which spans the
    window, and no gap. *)
Theorem greedy_spanning_satellite region self s :
  targetStart self < targetEnd self ->
  In s (filterByRegion region self) ->
  sat_start s <= targetStart self ->
  targetEnd self <= sat_end s ->
  exists best,
    (findMinimumSatellites sort region self).1 = Some ([best], [])
    /\ In best (filterByRegion region self)
    /\ sat_start best <= targetStart self
    /\ targetEnd self <= sat_end best.
Proof.
  intros Hw Hin Hs0 Hs1.
  unfold findMinimumSatellites, findMinimumSatellites_body. simpl fst.
  destruct (Hsort (filterByRegion region self)) as [Hperm Hsorted].
  set (filtered := sort (filterByRegion region self)) in *.
  assert (Hinf : In s filtered).
  { eapply Permutation_in; [symmetry; exact Hperm|done]. }
  pose proof (collect_candidates_complete filtered (targetStart self) s
                Hsorted Hinf Hs0) as Hcand.
  destruct (collect_candidates filtered (targetStart self)) as [|c cs] eqn:Hc;
    [done|].
  destruct (greedy_iteration_candidates (targetEnd self) filtered
              (mkGreedy 0 (targetStart self) [] []) c cs)
    as (best & pre & post & Hit & Heq & Hb0 & Hmax & _); [done|].
  exists best.
  assert (Hbest : In best (c :: cs)).
  { rewrite Heq. apply in_or_app. right. by left. }
  assert (Hb1 : targetEnd self <= sat_end best).
  { specialize (Hmax s Hcand). lra. }
  split; [|split; [|done]].
  - unfold greedy_cover.
    destruct filtered as [|f0 ftl] eqn:Hf; [done|].
    cbn [length greedy_loop]. unfold greedy_cond at 1. cbn [g_currentEnd g_i].
    apply Qltb_lt in Hw. rewrite Hw. apply Qltb_lt in Hw.
    cbn [length Nat.ltb Nat.leb andb]. rewrite Hit.
    rewrite greedy_loop_stop.
    + simpl. unfold trailing_gap. apply Qltb_ge in Hb1. by rewrite Hb1.
    + unfold greedy_cond. cbn [g_currentEnd].
      apply Qltb_ge in Hb1. by rewrite Hb1.
  - eapply Permutation_in; [exact Hperm|].
    rewrite (collect_candidates_take filtered (targetStart self)) in Hc.
    assert (Hsub : sublist (c :: cs) filtered).
    { rewrite <- Hc. apply sublist_take. }
    apply list_elem_of_In. eapply elem_of_sublist; [|exact Hsub].
    by apply list_elem_of_In.
Qed.

End Selection.

(** ** The dynamic-programming query on a list with a hole *)

Lemma sorted_lookup_le (filtered : list Satellite) (j j' : nat) (a b : Satellite) :
  StronglySorted le_start filtered -> (j <= j')%nat ->
  filtered !! j = Some a -> filtered !! j' = Some b ->
  sat_start a <= sat_start b.
Proof.
  intros Hs. revert j j'. induction Hs as [|x tl Hs IH Hx]; intros j j' Hle Ha Hb.
  - done.
  - destruct j as [|j], j' as [|j']; simpl in *; try lia.
    + replace b with a by congruence. lra.
    + injection Ha as <-. rewrite List.Forall_forall in Hx.
      apply (Hx b). apply list_elem_of_In. by eapply list_elem_of_lookup_2.
    + apply (IH j j'); [lia|done|done].
Qed.

Lemma min_cost_cover_unchained tStart tEnd filtered :
  ~ chained tStart filtered ->
  min_cost_cover tStart tEnd filtered
  = Some ([], DFin 0, trailing_gap tStart tEnd []).
Proof.
  intros Hnot.
  destruct (min_cost_cover_spec tStart tEnd filtered)
    as (t & m & Ht & Hinv & Hm & Hr & Hu & Hstop & Hpass).
  pose proof (dp_fill_links _ _ _ Ht) as Hlinks.
  destruct Hstop as [->|Hinf].
  { exfalso. apply Hnot. intros j sj Hsj.
    destruct Hlinks as [_ Hch]. apply (Hch j sj Hsj).
    apply Hpass. apply lookup_lt_Some in Hsj. lia. }
  assert (m = length filtered) as ->.
  { destruct (decide (m = length filtered)) as [|Hne]; [done|].
    assert (Hfin : is_finite (t.1 !! S m)) by (apply Hpass; lia).
    apply (dp_links_down _ _ _ _ m Hlinks) in Hfin as [c Hc]; [|lia].
    congruence. }
  rewrite Hu in Hr; [done|].
  destruct Hinv as (_ & _ & H0 & Hp0 & Hk).
  destruct (length filtered) as [|n'] eqn:Hn; [done|].
  destruct (Hk (S n')) as [[_ Hp]|(c & Hc & _)]; [lia|done|congruence].
Qed.

(** X7. If some satellite of the sorted filtered list starts after the
    window start and after the end of every satellite before it in the
    list, [findMinimumCostCoverage] selects nothing: the selection is
    empty, [totalCost] is 0, and the gap list is the whole window when
    [T0 < T1] and empty otherwise. *)
Theorem min_cost_nothing_when_unchained
    (sort : list Satellite -> list Satellite) region self j sj :
  sort (filterByRegion region self) !! j = Some sj ->
  targetStart self < sat_start sj ->
  (forall i' si', (i' < j)%nat ->
     sort (filterByRegion region self) !! i' = Some si' ->
     sat_end si' < sat_start sj) ->
  (findMinimumCostCoverage sort region self).1
  = Some ([], DFin 0,
          if Qltb (targetStart self) (targetEnd self)
          then [mkCoverageInterval (targetStart self) (targetEnd self)]
          else []).
Proof.
  intros Hsj Hafter Hbefore.
  unfold findMinimumCostCoverage, findMinimumCostCoverage_body. simpl fst.
  rewrite min_cost_cover_unchained; [done|].
  intros Hch. destruct (Hch j sj Hsj) as [Hle|(i' & si' & Hi' & Hsi' & Hle)].
  - lra.
  - specialize (Hbefore i' si' Hi' Hsi'). lra.
Qed.


(** ** The greedy query on lists whose ends grow with their starts *)

Lemma sorted_lookup_le_end (filtered : list Satellite) (j j' : nat) (a b : Satellite) :
  StronglySorted le_end filtered -> (j <= j')%nat ->
  filtered !! j = Some a -> filtered !! j' = Some b ->
  sat_end a <= sat_end b.
Proof.
  intros Hs. revert j j'. induction Hs as [|x tl Hs IH Hx]; intros j j' Hle Ha Hb.
  - done.
  - destruct j as [|j], j' as [|j']; simpl in *; try lia.
    + replace b with a by congruence. lra.
    + injection Ha as <-. rewrite List.Forall_forall in Hx.
      apply (Hx b). apply list_elem_of_In. by eapply list_elem_of_lookup_2.
    + apply (IH j j'); [lia|done|done].
Qed.

Lemma covered_by_app_l tStart tEnd l1 l2 t :
  covered_by tStart tEnd l1 t -> covered_by tStart tEnd (l1 ++ l2) t.
Proof.
  intros [Hw (s & Hs & Hin)]. split; [done|]. exists s. split; [|done].
  apply in_or_app. by left.
Qed.

Lemma in_gaps_app_l gs1 gs2 t : in_gaps gs1 t -> in_gaps (gs1 ++ gs2) t.
Proof.
  intros (g & Hg & Hin). exists g. split; [|done]. apply in_or_app. by left.
Qed.

(** The frontier never falls back on such a list. *)
Lemma frontier_le_end tStart filtered i currentEnd k sk :
  StronglySorted le_end filtered ->
  (forall s, In s filtered -> tStart <= sat_end s) ->
  frontier_of tStart filtered i currentEnd ->
  (i <= k)%nat -> filtered !! k = Some sk ->
  currentEnd <= sat_end sk.
Proof.
  intros Hends Hafter [->|(i' & si' & Hi' & Hsi' & ->)] Hik Hsk.
  - apply Hafter. apply list_elem_of_In. by eapply list_elem_of_lookup_2.
  - apply (sorted_lookup_le_end filtered i' k); [done|lia|done|done].
Qed.

Lemma greedy_iteration_tiling tStart tEnd filtered st :
  StronglySorted le_start filtered ->
  StronglySorted le_end filtered ->
  (forall s, In s filtered -> tStart <= sat_end s) ->
  greedy_tiling_inv tStart tEnd filtered st ->
  greedy_cond tEnd filtered st = true ->
  match greedy_iteration tEnd filtered st with
  | Continue st' | Break st' => greedy_tiling_inv tStart tEnd filtered st'
  end.
Proof.
  intros Hstarts Hends Hafter (Hi & Hb & Hfr & Hsel & Hcov & Hgw & Hgk & Hdisj) Hc.
  apply andb_true_iff in Hc as [Hcur Hin]. apply Qltb_lt in Hcur.
  apply Nat.ltb_lt in Hin.
  destruct (lookup_lt_is_Some_2 filtered (g_i st) Hin) as [s Hs].
  destruct (collect_candidates (drop (g_i st) filtered) (g_currentEnd st))
    as [|c cs] eqn:Hcand.
  - (* no candidate: a gap, then the next satellite *)
    assert (Hgt : g_currentEnd st < sat_start s).
    { rewrite (drop_S _ _ _ Hs) in Hcand. simpl in Hcand.
      destruct (Qleb (sat_start s) (g_currentEnd st)) eqn:E; [done|].
      by apply Qleb_gt in E. }
    unfold greedy_iteration. rewrite Hcand. simpl. rewrite Nat.add_0_r, Hs.
    assert (Hmin : g_currentEnd st < std_min (sat_start s) tEnd
                   /\ std_min (sat_start s) tEnd <= sat_start s
                   /\ std_min (sat_start s) tEnd <= tEnd
                   /\ (std_min (sat_start s) tEnd = sat_start s
                       \/ std_min (sat_start s) tEnd = tEnd)).
    { destruct (std_min_spec (sat_start s) tEnd) as [[? ->]|[? ->]];
        repeat split; auto; lra. }
    destruct Hmin as (Hlt & Hle1 & Hle2 & Hwhich).
    apply Qltb_lt in Hlt. rewrite Hlt. apply Qltb_lt in Hlt.
    set (gapEnd := std_min (sat_start s) tEnd) in *.
    pose proof (frontier_le_end tStart filtered (g_i st) (g_currentEnd st)
                  (g_i st) s Hends Hafter Hfr (le_n _) Hs) as Hmono.
    unfold greedy_tiling_inv. simpl.
    split; [lia|]. split; [lra|]. split.
    { right. exists (g_i st), s. split; [lia|done]. }
    split.
    { intros s0 Hs0. apply in_app_or in Hs0 as [Hs0|[<-|[]]]; [|lra].
      apply Hsel in Hs0. lra. }
    split.
    { intros t Hw Ht. destruct (Qlt_le_dec t (g_currentEnd st)) as [Hlo|Hhi].
      - destruct (Hcov t Hw Hlo) as [H|H].
        + left. by apply covered_by_app_l.
        + right. by apply in_gaps_app_l.
      - destruct (Qlt_le_dec t gapEnd) as [Hlo'|Hhi'].
        + right. exists (mkCoverageInterval (g_currentEnd st) gapEnd).
          split; [apply in_or_app; right; by left|done].
        + left. split; [done|]. exists s.
          split; [apply in_or_app; right; by left|].
          destruct Hw as [_ Hw1]. unfold in_interval.
          fold (sat_start s) (sat_end s).
          destruct Hwhich as [Hw'|Hw']; rewrite Hw' in Hhi'; lra. }
    split.
    { intros g Hg. apply in_app_or in Hg as [Hg|[<-|[]]]; [by apply Hgw|].
      simpl. lra. }
    split.
    { intros g k sk Hg Hk Hsk. apply in_app_or in Hg as [Hg|[<-|[]]].
      - apply (Hgk g k sk Hg); [lia|done].
      - simpl.
        pose proof (sorted_lookup_le filtered (g_i st) k s sk Hstarts) as H.
        specialize (H ltac:(lia) Hs Hsk). lra. }
    intros g s0 Hg Hs0.
    apply in_app_or in Hg as [Hg|[<-|[]]];
      apply in_app_or in Hs0 as [Hs0|[<-|[]]].
    + by apply Hdisj.
    + left. by apply (Hgk g (g_i st) s Hg).
    + right. simpl. by apply Hsel.
    + left. simpl. lra.
  - (* candidates: the one with the largest end *)
    destruct (greedy_iteration_candidates tEnd filtered st c cs Hcand)
      as (best & pre & post & -> & Heq & Hstart & _ & _).
    pose proof (collect_candidates_take (drop (g_i st) filtered) (g_currentEnd st))
      as Htake.
    pose proof (collect_candidates_length (drop (g_i st) filtered) (g_currentEnd st))
      as Hlen.
    rewrite Hcand in Htake, Hlen. simpl in Htake, Hlen.
    rewrite length_drop in Hlen.
    assert (Hbest : exists kb, (g_i st <= kb)%nat
                               /\ (kb < g_i st + S (length cs))%nat
                               /\ filtered !! kb = Some best).
    { assert (Hin' : best ∈ take (S (length cs)) (drop (g_i st) filtered)).
      { simpl. rewrite <- Htake, Heq. apply list_elem_of_In, in_or_app.
        right. by left. }
      apply list_elem_of_lookup_1 in Hin' as [k Hk].
      apply lookup_take_Some in Hk as [Hk Hklt].
      rewrite lookup_drop in Hk.
      exists (g_i st + k)%nat. split; [lia|]. split; [lia|done]. }
    destruct Hbest as (kb & Hkb0 & Hkb1 & Hkb).
    pose proof (frontier_le_end tStart filtered (g_i st) (g_currentEnd st)
                  kb best Hends Hafter Hfr Hkb0 Hkb) as Hmono.
    unfold greedy_tiling_inv. simpl.
    split; [lia|]. split; [lra|]. split.
    { right. exists kb, best. split; [lia|done]. }
    split.
    { intros s0 Hs0. apply in_app_or in Hs0 as [Hs0|[<-|[]]]; [|lra].
      apply Hsel in Hs0. lra. }
    split.
    { intros t Hw Ht. destruct (Qlt_le_dec t (g_currentEnd st)) as [Hlo|Hhi].
      - destruct (Hcov t Hw Hlo) as [H|H]; [|by right].
        left. by apply covered_by_app_l.
      - left. split; [done|]. exists best.
        split; [apply in_or_app; right; by left|].
        unfold in_interval. fold (sat_start best) (sat_end best). lra. }
    split; [done|]. split.
    { intros g k sk Hg Hk Hsk. apply (Hgk g k sk Hg); [lia|done]. }
    intros g s0 Hg Hs0. apply in_app_or in Hs0 as [Hs0|[<-|[]]].
    + by apply Hdisj.
    + left. by apply (Hgk g kb best Hg).
Qed.

Lemma greedy_cover_tiles tStart tEnd filtered :
  StronglySorted le_start filtered ->
  StronglySorted le_end filtered ->
  (forall s, In s filtered -> tStart <= sat_end s) ->
  exists selected gs,
    greedy_cover tStart tEnd filtered = Some (selected, gs)
    /\ tiles tStart tEnd selected gs.
Proof.
  intros Hstarts Hends Hafter. unfold greedy_cover.
  destruct (greedy_loop_inv (greedy_tiling_inv tStart tEnd filtered)
              tEnd filtered) with
    (fuel := length filtered) (st := mkGreedy 0 tStart [] [])
    as (st' & -> & Hinv); simpl.
  - intros st Hst Hc. by apply greedy_iteration_tiling.
  - unfold greedy_tiling_inv. simpl.
    split; [lia|]. split; [lra|]. split; [by left|]. split; [done|].
    split; [intros t [? ?] ?; lra|]. by repeat split.
  - lia.
  - eexists _, _. split; [reflexivity|].
    destruct Hinv as (_ & Hb & _ & Hsel & Hcov & Hgw & _ & Hdisj).
    unfold trailing_gap.
    destruct (Qltb (g_currentEnd st') tEnd) eqn:E;
      [apply Qltb_lt in E | apply Qltb_ge in E]; split.
    + intros t. split.
      * intros Hw. destruct (Qlt_le_dec t (g_currentEnd st')) as [Hlo|Hhi].
        -- destruct (Hcov t Hw Hlo) as [H|H]; [by left|].
           right. by apply in_gaps_app_l.
        -- right. exists (mkCoverageInterval (g_currentEnd st') tEnd).
           split; [apply in_or_app; right; by left|].
           destruct Hw. by split.
      * intros [[Hw _]|(g & Hg & [Hg0 Hg1])]; [done|].
        apply in_app_or in Hg as [Hg|[<-|[]]].
        -- apply Hgw in Hg as [? ?]. split; lra.
        -- simpl in *. split; lra.
    + intros t g s Hg Hs [Hg0 Hg1] [Hs0 Hs1].
      fold (sat_start s) in Hs0. fold (sat_end s) in Hs1.
      apply in_app_or in Hg as [Hg|[<-|[]]].
      * destruct (Hdisj g s Hg Hs); lra.
      * simpl in *. apply Hsel in Hs. lra.
    + intros t. split.
      * intros Hw. apply Hcov; [done|]. destruct Hw. lra.
      * intros [[Hw _]|(g & Hg & [Hg0 Hg1])]; [done|].
        apply Hgw in Hg as [? ?]. split; lra.
    + intros t g s Hg Hs [Hg0 Hg1] [Hs0 Hs1].
      fold (sat_start s) in Hs0. fold (sat_end s) in Hs1.
      destruct (Hdisj g s Hg Hs); lra.
Qed.

Section Tiling.

Variable sort : list Satellite -> list Satellite.
Hypothesis Hsort : sorts_by_start sort.

(** X8. When, in the sorted filtered list, the ends do not decrease
    along the list and every satellite ends at or after [T0], the
    selection and gaps of [findMinimumSatellites] tile the window: the
    selected intervals clipped to the window and the gaps make up
    exactly [[T0,T1)], and no gap meets a selected interval. *)
Theorem greedy_tiles_when_ends_grow region self :
  StronglySorted le_end (sort (filterByRegion region self)) ->
  (forall s, In s (filterByRegion region self) -> targetStart self <= sat_end s) ->
  exists selected gs,
    (findMinimumSatellites sort region self).1 = Some (selected, gs)
    /\ tiles (targetStart self) (targetEnd self) selected gs.
Proof.
  intros Hends Hafter.
  unfold findMinimumSatellites, findMinimumSatellites_body. simpl fst.
  destruct (Hsort (filterByRegion region self)) as [Hperm Hstarts].
  apply greedy_cover_tiles; [done|done|].
  intros s Hs. apply Hafter. by eapply Permutation_in.
Qed.

(** X9. Every gap reported by [findMinimumSatellites] ends at or before
    the window end [T1], whatever the registry. *)
Theorem greedy_gaps_end_by_window_end region self :
  exists selected gs,
    (findMinimumSatellites sort region self).1 = Some (selected, gs)
    /\ Forall (fun g => getEnd g <= targetEnd self) gs.
Proof.
  unfold findMinimumSatellites, findMinimumSatellites_body, greedy_cover.
  simpl fst. set (filtered := sort _).
  destruct (greedy_loop_inv
              (fun st => Forall (fun g => getEnd g <= targetEnd self) (g_gaps st))
              (targetEnd self) filtered) with
    (fuel := length filtered) (st := mkGreedy 0 (targetStart self) [] [])
    as (st' & -> & Hst'); simpl; [| constructor | lia |].
  - intros st Hst _. by apply greedy_iteration_gap_ends.
  - eexists _, _. split; [reflexivity|]. unfold trailing_gap.
    destruct (Qltb _ _); [|done].
    apply Forall_app. split; [done|]. repeat constructor. simpl. lra.
Qed.

End Tiling.

(** ** The further properties at concrete inputs *)

Lemma overlaps_common_point_witness :
  let a := mkCoverageInterval 0 6 in
  let b := mkCoverageInterval 2 8 in
  let c := mkCoverageInterval 6 9 in
  overlaps a b = overlaps b a
  /\ getEnd a <= getStart c
  /\ overlaps a c = false
  /\ getStart a < getEnd a
  /\ getStart b < getEnd b
  /\ (overlaps a b = true <-> exists t, in_interval t a /\ in_interval t b).
Proof.
  intros a b c.
  assert (Htouch : getEnd a <= getStart c) by (vm_compute; discriminate).
  assert (Ha : getStart a < getEnd a) by reflexivity.
  assert (Hb : getStart b < getEnd b) by reflexivity.
  split; [exact (proj1 (overlaps_common_point a b))|].
  split; [exact Htouch|].
  split; [exact (proj1 (proj2 (overlaps_common_point a c)) Htouch)|].
  split; [exact Ha|]. split; [exact Hb|].
  exact (proj2 (proj2 (overlaps_common_point a b)) Ha Hb).
Defined.

Lemma greedy_picks_max_end_witness :
  let filtered := [sat_alpha; sat_eta; sat_gamma] in
  let st := mkGreedy 0 2 [] [] in
  collect_candidates (drop (g_i st) filtered) (g_currentEnd st)
  = [sat_alpha; sat_eta]
  /\ exists best pre post,
       greedy_iteration 24 filtered st
       = Continue (mkGreedy 2 (sat_end best) [best] [])
       /\ [sat_alpha; sat_eta] = pre ++ best :: post
       /\ sat_start best <= 2
       /\ (forall s, In s [sat_alpha; sat_eta] -> sat_end s <= sat_end best)
       /\ (forall s, In s pre -> sat_end s < sat_end best).
Proof.
  intros filtered st. split; [reflexivity|].
  exact (greedy_picks_max_end 24 filtered st sat_alpha [sat_eta] eq_refl).
Defined.

Lemma greedy_selection_sublist_witness :
  sorts_by_start insertion_sort
  /\ exists selected gs,
       (findMinimumSatellites insertion_sort "Europe" main_optimizer).1
       = Some (selected, gs)
       /\ sublist selected (insertion_sort (filterByRegion "Europe" main_optimizer))
       /\ StronglySorted le_start selected
       /\ (forall s, In s selected ->
             In s (satellites main_optimizer)
             /\ ("Europe"%string <> "All"%string -> getRegion s = "Europe"%string))
       /\ (length selected <= length (satellites main_optimizer))%nat.
Proof.
  split; [exact insertion_sort_sorts|].
  exact (greedy_selection_sublist insertion_sort insertion_sort_sorts
           "Europe"%string main_optimizer).
Defined.

Lemma greedy_spanning_satellite_witness :
  let wide := mkSatellite "Sat-Wide" (mkCoverageInterval (-1) 30) 5000 "Global" in
  let self := add "Sat-Wide" (-1) 30 5000 "Global" main_optimizer in
  sorts_by_start insertion_sort
  /\ targetStart self < targetEnd self
  /\ In wide (filterByRegion "Global" self)
  /\ sat_start wide <= targetStart self
  /\ targetEnd self <= sat_end wide
  /\ exists best,
       (findMinimumSatellites insertion_sort "Global" self).1 = Some ([best], [])
       /\ In best (filterByRegion "Global" self)
       /\ sat_start best <= targetStart self
       /\ targetEnd self <= sat_end best.
Proof.
  intros wide self.
  assert (Hw : targetStart self < targetEnd self) by reflexivity.
  assert (Hin : In wide (filterByRegion "Global" self)).
  { right. right. by left. }
  assert (H0 : sat_start wide <= targetStart self) by (vm_compute; discriminate).
  assert (H1 : targetEnd self <= sat_end wide) by (vm_compute; discriminate).
  split; [exact insertion_sort_sorts|].
  split; [exact Hw|]. split; [exact Hin|]. split; [exact H0|]. split; [exact H1|].
  exact (greedy_spanning_satellite insertion_sort insertion_sort_sorts
           "Global"%string self wide Hw Hin H0 H1).
Defined.

Lemma greedy_tiles_when_ends_grow_witness :
  sorts_by_start insertion_sort
  /\ StronglySorted le_end (insertion_sort (filterByRegion "All" main_optimizer))
  /\ (forall s, In s (filterByRegion "All" main_optimizer) ->
        targetStart main_optimizer <= sat_end s)
  /\ exists selected gs,
       (findMinimumSatellites insertion_sort "All" main_optimizer).1
       = Some (selected, gs)
       /\ tiles (targetStart main_optimizer) (targetEnd main_optimizer) selected gs.
Proof.
  assert (Hends : StronglySorted le_end
                    (insertion_sort (filterByRegion "All" main_optimizer))).
  { simpl. repeat constructor; unfold le_end, sat_end; simpl; lra. }
  assert (Hafter : forall s, In s (filterByRegion "All" main_optimizer) ->
                     targetStart main_optimizer <= sat_end s).
  { intros s Hs. simpl in Hs.
    repeat (destruct Hs as [<-|Hs]; [unfold sat_end; simpl; lra|]). done. }
  split; [exact insertion_sort_sorts|]. split; [exact Hends|].
  split; [exact Hafter|].
  exact (greedy_tiles_when_ends_grow insertion_sort insertion_sort_sorts
           "All"%string main_optimizer Hends Hafter).
Defined.

(** ** The queries across registries *)

(** In start order without two equal starts, the order is strict. *)
Lemma sorted_distinct_strict (l : list Satellite) :
  StronglySorted le_start l -> NoDup (map start_key l) ->
  StronglySorted lt_start l.
Proof.
  induction 1 as [|x tl Hs IH Hx]; intros Hnd; [constructor|].
  simpl in Hnd. apply NoDup_cons in Hnd as [Hnotin Hnd].
  constructor; [by apply IH|].
  rewrite List.Forall_forall in *. intros y Hy.
  specialize (Hx y Hy). unfold le_start, lt_start in *.
  destruct (Qlt_le_dec (sat_start x) (sat_start y)) as [|Hge]; [done|].
  exfalso. apply Hnotin. apply list_elem_of_In, in_map_iff.
  exists y. split; [|done]. unfold start_key.
  apply Qred_complete. lra.
Qed.

Section Registries.

Variable sort : list Satellite -> list Satellite.
Hypothesis Hsort : sorts_by_start sort.

(** X12. Registering a satellite of another region does not change what
    the three queries return for a region label other than "All". *)
Theorem queries_ignore_other_regions region name start end_ cost r self :
  region <> "All"%string ->
  default "Global"%string r <> region ->
  let self' := (addSatellite name start end_ cost r self).2 in
  (findMinimumSatellites sort region self').1
  = (findMinimumSatellites sort region self).1
  /\ (findMinimumCostCoverage sort region self').1
     = (findMinimumCostCoverage sort region self).1
  /\ (getCoverageSummary sort region self').1
     = (getCoverageSummary sort region self).1.
Proof.
  intros Hall Hother self'.
  assert (Hf : filterByRegion region self' = filterByRegion region self).
  { subst self'. rewrite filterByRegion_add.
    apply String.eqb_neq in Hall, Hother. simpl. rewrite Hall, Hother.
    simpl. apply app_nil_r. }
  unfold findMinimumSatellites, getCoverageSummary, getCoverageSummary_body,
    findMinimumSatellites_body, findMinimumCostCoverage,
    findMinimumCostCoverage_body. simpl fst.
  by rewrite Hf.
Qed.

(** X13. When the satellites of a region have pairwise different start
    times, the order of registration does not matter: two optimizers
    with the same window whose filtered lists are permutations of each
    other get the same results from the three queries. *)
Theorem queries_ignore_registration_order region self1 self2 :
  targetStart self1 = targetStart self2 ->
  targetEnd self1 = targetEnd self2 ->
  Permutation (filterByRegion region self1) (filterByRegion region self2) ->
  NoDup (map start_key (filterByRegion region self1)) ->
  (findMinimumSatellites sort region self1).1
  = (findMinimumSatellites sort region self2).1
  /\ (findMinimumCostCoverage sort region self1).1
     = (findMinimumCostCoverage sort region self2).1
  /\ (getCoverageSummary sort region self1).1
     = (getCoverageSummary sort region self2).1.
Proof.
  intros H0 H1 Hperm Hnd.
  destruct (Hsort (filterByRegion region self1)) as [Hp1 Hs1].
  destruct (Hsort (filterByRegion region self2)) as [Hp2 Hs2].
  assert (Hf : sort (filterByRegion region self2)
               = sort (filterByRegion region self1)).
  { apply sorted_perm_unique; [|by rewrite Hp2, Hp1, Hperm|done].
    apply sorted_distinct_strict; [done|]. by rewrite Hp1. }
  unfold findMinimumSatellites, getCoverageSummary, getCoverageSummary_body,
    findMinimumSatellites_body, findMinimumCostCoverage,
    findMinimumCostCoverage_body. simpl fst.
  by rewrite Hf, H0, H1.
Qed.

End Registries.

Lemma queries_ignore_other_regions_witness :
  let self' := (addSatellite "Sat-New" 1 2 (Some 5) (Some "Europe"%string)
                  main_optimizer).2 in
  sorts_by_start insertion_sort
  /\ "Asia"%string <> "All"%string
  /\ default "Global"%string (Some "Europe"%string) <> "Asia"%string
  /\ (findMinimumSatellites insertion_sort "Asia" self').1
     = (findMinimumSatellites insertion_sort "Asia" main_optimizer).1
  /\ (findMinimumCostCoverage insertion_sort "Asia" self').1
     = (findMinimumCostCoverage insertion_sort "Asia" main_optimizer).1
  /\ (getCoverageSummary insertion_sort "Asia" self').1
     = (getCoverageSummary insertion_sort "Asia" main_optimizer).1.
Proof.
  intros self'.
  assert (Hall : "Asia"%string <> "All"%string) by discriminate.
  assert (Hother : default "Global"%string (Some "Europe"%string) <> "Asia"%string)
    by discriminate.
  split; [exact insertion_sort_sorts|]. split; [exact Hall|].
  split; [exact Hother|].
  exact (queries_ignore_other_regions insertion_sort "Asia"%string
           "Sat-New"%string 1 2 (Some 5) (Some "Europe"%string) main_optimizer
           Hall Hother).
Defined.

Lemma queries_ignore_registration_order_witness :
  let self2 := add "Sat-A" 0 6 5 "Global"
                 (add "Sat-B" 10 14 7 "Global" (newOptimizer (Some 0) (Some 24))) in
  sorts_by_start insertion_sort
  /\ Permutation (filterByRegion "All" prefix_registry) (filterByRegion "All" self2)
  /\ NoDup (map start_key (filterByRegion "All" prefix_registry))
  /\ (findMinimumSatellites insertion_sort "All" prefix_registry).1
     = (findMinimumSatellites insertion_sort "All" self2).1
  /\ (findMinimumCostCoverage insertion_sort "All" prefix_registry).1
     = (findMinimumCostCoverage insertion_sort "All" self2).1
  /\ (getCoverageSummary insertion_sort "All" prefix_registry).1
     = (getCoverageSummary insertion_sort "All" self2).1.
Proof.
  intros self2.
  assert (Hperm : Permutation (filterByRegion "All" prefix_registry)
                    (filterByRegion "All" self2)) by apply perm_swap.
  assert (Hnd : NoDup (map start_key (filterByRegion "All" prefix_registry))).
  { apply NoDup_cons. split; [|apply NoDup_singleton].
    rewrite list_elem_of_In. intros [H|[]]. vm_compute in H. discriminate H. }
  split; [exact insertion_sort_sorts|]. split; [exact Hperm|].
  split; [exact Hnd|].
  exact (queries_ignore_registration_order insertion_sort insertion_sort_sorts
           "All"%string prefix_registry self2 eq_refl eq_refl Hperm Hnd).
Defined.

Lemma min_cost_nothing_when_unchained_witness :
  let sj := mkSatellite "Sat-B" (mkCoverageInterval 10 14) 7 "Global" in
  insertion_sort (filterByRegion "All" prefix_registry) !! 1%nat = Some sj
  /\ targetStart prefix_registry < sat_start sj
  /\ (forall i' si', (i' < 1)%nat ->
        insertion_sort (filterByRegion "All" prefix_registry) !! i' = Some si' ->
        sat_end si' < sat_start sj)
  /\ (findMinimumCostCoverage insertion_sort "All" prefix_registry).1
     = Some ([], DFin 0, [mkCoverageInterval 0 24]).
Proof.
  intros sj.
  assert (Hafter : targetStart prefix_registry < sat_start sj) by reflexivity.
  assert (Hbefore : forall i' si', (i' < 1)%nat ->
            insertion_sort (filterByRegion "All" prefix_registry) !! i' = Some si' ->
            sat_end si' < sat_start sj).
  { intros i' si' Hi' Hsi'. destruct i' as [|i']; [|lia].
    simpl in Hsi'. injection Hsi' as <-. reflexivity. }
  split; [reflexivity|]. split; [exact Hafter|]. split; [exact Hbefore|].
  exact (min_cost_nothing_when_unchained insertion_sort "All"%string
           prefix_registry 1%nat sj eq_refl Hafter Hbefore).
Defined.
